(** * parseJSON: lenient JSON extraction and key search

    A shallow embedding of [src/parseJSON.ts] and the properties its
    specification states about it.

    Strings are JavaScript strings: sequences of UTF-16 code units, here
    lists of [N].  The built-ins the source calls ([trim], [trimStart],
    [startsWith], [indexOf], [slice], [Array.from], the three regular
    expressions, [JSON.parse]) are modelled next to the functions that
    call them. *)

From Stdlib Require Import String Ascii.
From Stdlib Require Import List Bool Arith NArith ZArith Lia.
Import ListNotations.

Open Scope N_scope.
Open Scope list_scope.

(** ** Characters and strings *)

Definition char := N.
Definition str := list char.

(** Literals of this file are written as Rocq strings; a backquote in
    such a literal stands for the double quote character (code 34). *)
Definition js_char (a : ascii) : char :=
  let n := N_of_ascii a in if n =? 96 then 34 else n.

Definition js (s : string) : str := map js_char (list_ascii_of_string s).
Arguments js s%_string.

Definition c_dquote : char := 34.      (* double quote *)
Definition c_squote : char := 39.      (* single quote *)
Definition c_backslash : char := 92.   (* backslash *)
Definition c_lbrace : char := 123.     (* { *)
Definition c_rbrace : char := 125.     (* } *)
Definition c_lbracket : char := 91.    (* [ *)
Definition c_rbracket : char := 93.    (* ] *)
Definition c_comma : char := 44.       (* , *)
Definition c_colon : char := 58.       (* : *)
Definition c_minus : char := 45.       (* - *)
Definition c_equals : char := 61.      (* = *)

Fixpoint str_eqb (a b : str) : bool :=
  match a, b with
  | [], [] => true
  | x :: a', y :: b' => (x =? y) && str_eqb a' b'
  | _, _ => false
  end.

(** [\d] *)
Definition isDigit (c : char) : bool := (48 <=? c) && (c <=? 57).

(** ECMAScript WhiteSpace and LineTerminator code points: what [trim],
    [trimStart] and the class [\s] of a regular expression accept. *)
Definition isWhiteSpace (c : char) : bool :=
  ((9 <=? c) && (c <=? 13)) || (c =? 32) || (c =? 160) || (c =? 5760)
  || ((8192 <=? c) && (c <=? 8202)) || (c =? 8232) || (c =? 8233)
  || (c =? 8239) || (c =? 8287) || (c =? 12288) || (c =? 65279).

Fixpoint dropWhile (p : char -> bool) (s : str) : str :=
  match s with
  | [] => []
  | c :: rest => if p c then dropWhile p rest else s
  end.

Fixpoint takeWhile (p : char -> bool) (s : str) : str :=
  match s with
  | [] => []
  | c :: rest => if p c then c :: takeWhile p rest else []
  end.

(** [String.prototype.trimStart], [trimEnd] and [trim]. *)
Definition trimStart (s : str) : str := dropWhile isWhiteSpace s.
Fixpoint trimEnd (s : str) : str :=
  match s with
  | [] => []
  | c :: rest =>
      match trimEnd rest with
      | [] => if isWhiteSpace c then [] else [c]
      | kept => c :: kept
      end
  end.
Definition trim (s : str) : str := trimEnd (trimStart s).

(** [t.startsWith(p)] *)
Fixpoint startsWith (t p : str) : bool :=
  match p, t with
  | [], _ => true
  | x :: p', y :: t' => (x =? y) && startsWith t' p'
  | _ :: _, [] => false
  end.

(** [t.indexOf(c)] for a one-character [c]; [None] stands for [-1]. *)
Fixpoint indexOf (t : str) (c : char) : option nat :=
  match t with
  | [] => None
  | x :: rest =>
      if x =? c then Some O
      else match indexOf rest c with
           | Some i => Some (S i)
           | None => None
           end
  end.

(** [t.slice(a, b)] for indices [0 <= a <= b]. *)
Definition slice (t : str) (a b : nat) : str := firstn (b - a) (skipn a t).

(** ** Classifier *)

(** [/^-?\d/.test(t)] *)
Definition test_minus_digit (t : str) : bool :=
  match t with
  | c :: rest =>
      if c =? c_minus
      then match rest with d :: _ => isDigit d | [] => false end
      else isDigit c
  | [] => false
  end.

Definition looksLikeJSON (s : str) : bool :=
  let t := trimStart s in
  startsWith t (js "{") || startsWith t (js "[") || startsWith t (js "`")
  || str_eqb t (js "true") || str_eqb t (js "false") || str_eqb t (js "null")
  || test_minus_digit t.

(** ** Normalizer *)

Definition isHighSurrogate (c : char) : bool := (55296 <=? c) && (c <=? 56319).
Definition isLowSurrogate (c : char) : bool := (56320 <=? c) && (c <=? 57343).

(** [Array.from(raw)]: the string split by code points, a surrogate pair
    being one element of two code units. *)
Fixpoint Array_from (s : str) : list str :=
  match s with
  | [] => []
  | c :: rest =>
      match rest with
      | d :: rest' =>
          if isHighSurrogate c && isLowSurrogate d
          then [c; d] :: Array_from rest'
          else [c] :: Array_from rest
      | [] => [[c]]
      end
  end.

(** [e === c] for an element [e] of the array and a one-character [c]. *)
Definition is_char (e : str) (c : char) : bool :=
  match e with
  | [x] => x =? c
  | _ => false
  end.

(** The three places the scanning loop of [normalizeToJSON] can be in:
    its outer loop, the inner loop of a single-quoted run and the inner
    loop of a double-quoted run. *)
Inductive scan_mode := Normal | InSingle | InDouble.

(** The scanning loop, lines 35 to 90: the text appended to [out] from
    the elements [chars] on, when the loop is in mode [m]. *)
Fixpoint scan (m : scan_mode) (chars : list str) : str :=
  match chars with
  | [] => []
  | c :: rest =>
      match m with
      | Normal =>
          if is_char c c_squote then c_dquote :: scan InSingle rest
          else if is_char c c_dquote then c_dquote :: scan InDouble rest
          else c ++ scan Normal rest
      | InSingle =>
          if is_char c c_backslash then
            match rest with
            | next :: rest' =>
                if is_char next c_squote
                then c_squote :: scan InSingle rest'
                else if is_char next c_dquote
                then c_backslash :: c_dquote :: scan InSingle rest'
                else c ++ next ++ scan InSingle rest'
            | [] => c
            end
          else if is_char c c_dquote
          then c_backslash :: c_dquote :: scan InSingle rest
          else if is_char c c_squote then c_dquote :: scan Normal rest
          else c ++ scan InSingle rest
      | InDouble =>
          if is_char c c_backslash then
            match rest with
            | next :: rest' => c ++ next ++ scan InDouble rest'
            | [] => c
            end
          else if is_char c c_dquote then c_dquote :: scan Normal rest
          else c ++ scan InDouble rest
      end
  end.

(** [s.replace(re, repl)] for a global regular expression whose matches
    are never empty.  [m s] is the match of the expression anchored at the
    head of [s]: the replacement text and the length of the match.  The
    search resumes after the end of a match; [skip] counts the characters
    of the last match still to be passed over. *)
Fixpoint replaceAll (m : str -> option (str * nat)) (skip : nat) (s : str) : str :=
  match s with
  | [] => []
  | c :: rest =>
      match skip with
      | S k => replaceAll m k rest
      | O =>
          match m s with
          | Some (repl, len) => repl ++ replaceAll m (len - 1) rest
          | None => c :: replaceAll m O rest
          end
      end
  end.

(** [[A-Za-z_$]] and [[A-Za-z0-9_$]] *)
Definition isIdentStart (c : char) : bool :=
  ((65 <=? c) && (c <=? 90)) || ((97 <=? c) && (c <=? 122))
  || (c =? 95) || (c =? 36).
Definition isIdentPart (c : char) : bool := isIdentStart c || isDigit c.

(** The key pattern of line 93, anchored at the head of [s]: one of the
    characters { and , with any whitespace after it (group 1), an
    identifier (group 2), then any whitespace and a colon (group 3); it
    is replaced by group 1, the identifier between double quotes, group 3.
    The classes that follow each starred class are disjoint from it, so
    the greedy match is the only one backtracking can find. *)
Definition match_key (s : str) : option (str * nat) :=
  match s with
  | d :: r =>
      if (d =? c_lbrace) || (d =? c_comma) then
        let ws1 := takeWhile isWhiteSpace r in
        match dropWhile isWhiteSpace r with
        | i0 :: r1 =>
            if isIdentStart i0 then
              let id := i0 :: takeWhile isIdentPart r1 in
              let r2 := dropWhile isIdentPart r1 in
              let ws2 := takeWhile isWhiteSpace r2 in
              match dropWhile isWhiteSpace r2 with
              | k :: _ =>
                  if k =? c_colon
                  then Some (d :: ws1 ++ c_dquote :: id ++ c_dquote :: ws2 ++ [c_colon],
                             (1 + length ws1 + length id + length ws2 + 1)%nat)
                  else None
              | [] => None
              end
            else None
        | [] => None
        end
      else None
  | [] => None
  end.

(** The trailing-comma pattern of line 96, anchored at the head of [s]:
    a comma, then any whitespace and a closing brace or bracket (group 1);
    it is replaced by group 1. *)
Definition match_trailing_comma (s : str) : option (str * nat) :=
  match s with
  | d :: r =>
      if d =? c_comma then
        let ws := takeWhile isWhiteSpace r in
        match dropWhile isWhiteSpace r with
        | b :: _ =>
            if (b =? c_rbrace) || (b =? c_rbracket)
            then Some (ws ++ [b], (1 + length ws + 1)%nat)
            else None
        | [] => None
        end
      else None
  | [] => None
  end.

Definition normalizeToJSON (raw : str) : str :=
  let chars := Array_from raw in
  let out := scan Normal chars in
  let out := replaceAll match_key 0 out in
  let out := replaceAll match_trailing_comma 0 out in
  out.

(** ** BalancedExtractor *)

(** The loop of [extractBalanced], lines 115 to 129: [rest] is the text
    from index [i] on. *)
Fixpoint extractBalanced_loop (text : str) (start : nat) (open close : char)
    (rest : str) (i : nat) (depth : Z) (inString escape : bool) : option str :=
  match rest with
  | [] => None
  | ch :: rest' =>
      if escape then
        extractBalanced_loop text start open close rest' (S i) depth inString false
      else if ch =? c_backslash then
        extractBalanced_loop text start open close rest' (S i) depth inString true
      else if (ch =? c_dquote) && negb inString then
        extractBalanced_loop text start open close rest' (S i) depth true false
      else if (ch =? c_dquote) && inString then
        extractBalanced_loop text start open close rest' (S i) depth false false
      else if inString then
        extractBalanced_loop text start open close rest' (S i) depth inString false
      else if ch =? open then
        extractBalanced_loop text start open close rest' (S i) (depth + 1)%Z false false
      else if ch =? close then
        let depth := (depth - 1)%Z in
        if (depth =? 0)%Z then Some (slice text start (S i))
        else extractBalanced_loop text start open close rest' (S i) depth false false
      else
        extractBalanced_loop text start open close rest' (S i) depth false false
  end.

Definition extractBalanced (text : str) (start : nat) (open close : char) : option str :=
  extractBalanced_loop text start open close (skipn start text) start 0%Z false false.

(** ** Values *)

(** [JSONValue], lines 7 to 13.  A number is kept as the literal the
    decoder read it from: the double JavaScript computes is a function of
    that literal, so equal literals are equal numbers.  An object is the
    list of its own properties in the order [Object.keys] enumerates them. *)
#[local] Unset Elimination Schemes.
Inductive JSONValue :=
| JString (s : str)
| JNumber (lit : str)
| JBool (b : bool)
| JNull
| JArray (items : list JSONValue)
| JObject (entries : list (str * JSONValue)).
#[local] Set Elimination Schemes.

(** A raised error; [JSON.parse] raises a [SyntaxError]. *)
Inductive Error := SyntaxError.

Inductive Result (A : Type) :=
| Ok (a : A)
| Throw (e : Error).
Arguments Ok {A} a.
Arguments Throw {A} e.

(** [Object.prototype.hasOwnProperty.call(obj, key)] *)
Definition hasOwnProperty (obj : list (str * JSONValue)) (key : str) : bool :=
  existsb (fun e => str_eqb (fst e) key) obj.

(** [obj[k]] for an own property. *)
Fixpoint get (obj : list (str * JSONValue)) (k : str) : option JSONValue :=
  match obj with
  | [] => None
  | (k', v) :: obj' => if str_eqb k' k then Some v else get obj' k
  end.

(** [Object.keys(obj)] *)
Definition Object_keys (obj : list (str * JSONValue)) : list str := map fst obj.

(** An array index is a canonical numeric string below [2^32 - 1]; own
    properties that are array indices are enumerated first, in ascending
    order, the others after them in the order of their creation. *)
Definition digits_value (k : str) : N :=
  fold_left (fun acc c => acc * 10 + (c - 48)) k 0.

Definition array_index (k : str) : option N :=
  match k with
  | [] => None
  | c :: rest =>
      if forallb isDigit k
         && (negb (c =? 48) || match rest with [] => true | _ => false end)
         && (digits_value k <? 4294967295)
      then Some (digits_value k)
      else None
  end.

Fixpoint obj_replace (obj : list (str * JSONValue)) (k : str) (v : JSONValue) :=
  match obj with
  | [] => []
  | (k', v') :: obj' =>
      if str_eqb k' k then (k', v) :: obj' else (k', v') :: obj_replace obj' k v
  end.

Fixpoint obj_insert_index (obj : list (str * JSONValue)) (i : N) (k : str) (v : JSONValue) :=
  match obj with
  | [] => [(k, v)]
  | (k', v') :: obj' =>
      match array_index k' with
      | Some j => if j <? i then (k', v') :: obj_insert_index obj' i k v
                  else (k, v) :: obj
      | None => (k, v) :: obj
      end
  end.

(** The property definition [JSON.parse] builds objects with: a key seen
    again keeps its place and takes the new value. *)
Definition CreateDataProperty (obj : list (str * JSONValue)) (k : str) (v : JSONValue) :=
  if hasOwnProperty obj k then obj_replace obj k v
  else match array_index k with
       | Some i => obj_insert_index obj i k v
       | None => obj ++ [(k, v)]
       end.

(** ** The strict decoder

    [JSON.parse] is a built-in of the language.  It is modelled by a
    lexer for the tokens of the JSON grammar followed by a parser for its
    values, each a machine that reads its input once. *)

Inductive token :=
| TLBrace | TRBrace | TLBracket | TRBracket | TColon | TComma
| TString (s : str)
| TNumber (lit : str)
| TTrue | TFalse | TNull.

(** JSON whitespace: tab, line feed, carriage return, space. *)
Definition isJSONWhiteSpace (c : char) : bool :=
  (c =? 9) || (c =? 10) || (c =? 13) || (c =? 32).

Definition hex_value (c : char) : option N :=
  if isDigit c then Some (c - 48)
  else if (97 <=? c) && (c <=? 102) then Some (c - 87)
  else if (65 <=? c) && (c <=? 70) then Some (c - 55)
  else None.

(** Where the lexer is inside a number literal. *)
Inductive num_phase :=
| NMinus | NZero | NInt | NDot | NFrac | NExp | NExpSign | NExpDigits.

Definition isExponentMark (c : char) : bool := (c =? 101) || (c =? 69).

Definition num_step (ph : num_phase) (c : char) : option num_phase :=
  match ph with
  | NMinus => if c =? 48 then Some NZero else if isDigit c then Some NInt else None
  | NZero =>
      if c =? 46 then Some NDot else if isExponentMark c then Some NExp else None
  | NInt =>
      if isDigit c then Some NInt
      else if c =? 46 then Some NDot
      else if isExponentMark c then Some NExp else None
  | NDot => if isDigit c then Some NFrac else None
  | NFrac =>
      if isDigit c then Some NFrac
      else if isExponentMark c then Some NExp else None
  | NExp =>
      if (c =? 43) || (c =? 45) then Some NExpSign
      else if isDigit c then Some NExpDigits else None
  | NExpSign => if isDigit c then Some NExpDigits else None
  | NExpDigits => if isDigit c then Some NExpDigits else None
  end.

Definition num_complete (ph : num_phase) : bool :=
  match ph with
  | NZero | NInt | NFrac | NExpDigits => true
  | _ => false
  end.

Inductive lex_state :=
| LStart
| LString (acc : str)
| LEscape (acc : str)
| LUnicode (acc : str) (hex : list N)
| LNumber (ph : num_phase) (lit : str)
| LWord (expect : str) (t : token).

Definition lex_start (c : char) : option (lex_state * list token) :=
  if isJSONWhiteSpace c then Some (LStart, [])
  else if c =? c_lbrace then Some (LStart, [TLBrace])
  else if c =? c_rbrace then Some (LStart, [TRBrace])
  else if c =? c_lbracket then Some (LStart, [TLBracket])
  else if c =? c_rbracket then Some (LStart, [TRBracket])
  else if c =? c_colon then Some (LStart, [TColon])
  else if c =? c_comma then Some (LStart, [TComma])
  else if c =? c_dquote then Some (LString [], [])
  else if c =? c_minus then Some (LNumber NMinus [c], [])
  else if c =? 48 then Some (LNumber NZero [c], [])
  else if isDigit c then Some (LNumber NInt [c], [])
  else if c =? 116 then Some (LWord (js "rue") TTrue, [])
  else if c =? 102 then Some (LWord (js "alse") TFalse, [])
  else if c =? 110 then Some (LWord (js "ull") TNull, [])
  else None.

Definition escape_value (c : char) : option char :=
  if c =? c_dquote then Some c_dquote
  else if c =? c_backslash then Some c_backslash
  else if c =? 47 then Some 47
  else if c =? 98 then Some 8
  else if c =? 102 then Some 12
  else if c =? 110 then Some 10
  else if c =? 114 then Some 13
  else if c =? 116 then Some 9
  else None.

Definition lex_step (st : lex_state) (c : char) : option (lex_state * list token) :=
  match st with
  | LStart => lex_start c
  | LString acc =>
      if c =? c_dquote then Some (LStart, [TString acc])
      else if c =? c_backslash then Some (LEscape acc, [])
      else if c <? 32 then None
      else Some (LString (acc ++ [c]), [])
  | LEscape acc =>
      if c =? 117 then Some (LUnicode acc [], [])
      else match escape_value c with
           | Some v => Some (LString (acc ++ [v]), [])
           | None => None
           end
  | LUnicode acc hex =>
      match hex_value c with
      | Some d =>
          match hex with
          | [d1; d2; d3] =>
              Some (LString (acc ++ [((d1 * 16 + d2) * 16 + d3) * 16 + d]), [])
          | _ => Some (LUnicode acc (hex ++ [d]), [])
          end
      | None => None
      end
  | LNumber ph lit =>
      match num_step ph c with
      | Some ph' => Some (LNumber ph' (lit ++ [c]), [])
      | None =>
          if num_complete ph then
            match lex_start c with
            | Some (st', toks) => Some (st', TNumber lit :: toks)
            | None => None
            end
          else None
      end
  | LWord expect t =>
      match expect with
      | e :: rest =>
          if c =? e
          then match rest with
               | [] => Some (LStart, [t])
               | _ => Some (LWord rest t, [])
               end
          else None
      | [] => None
      end
  end.

Definition lex_finish (st : lex_state) : option (list token) :=
  match st with
  | LStart => Some []
  | LNumber ph lit => if num_complete ph then Some [TNumber lit] else None
  | _ => None
  end.

Fixpoint lex_go (st : lex_state) (s : str) : option (list token) :=
  match s with
  | [] => lex_finish st
  | c :: rest =>
      match lex_step st c with
      | Some (st', toks) =>
          match lex_go st' rest with
          | Some more => Some (toks ++ more)
          | None => None
          end
      | None => None
      end
  end.

(** The parser keeps the containers that are still open on a stack. *)
Inductive frame :=
| FArray (items : list JSONValue)
| FObject (entries : list (str * JSONValue)) (key : str).

Inductive parse_state :=
| PValue (stack : list frame)
| PArrayStart (stack : list frame)
| PObjectStart (stack : list frame)
| PKey (entries : list (str * JSONValue)) (stack : list frame)
| PColon (entries : list (str * JSONValue)) (key : str) (stack : list frame)
| PAfterItem (items : list JSONValue) (stack : list frame)
| PAfterMember (entries : list (str * JSONValue)) (stack : list frame)
| PDone (v : JSONValue).

(** A value is complete: it goes to the innermost open container. *)
Definition deliver (v : JSONValue) (stack : list frame) : parse_state :=
  match stack with
  | [] => PDone v
  | FArray items :: stack' => PAfterItem (items ++ [v]) stack'
  | FObject entries key :: stack' =>
      PAfterMember (CreateDataProperty entries key v) stack'
  end.

Definition parse_value (stack : list frame) (t : token) : option parse_state :=
  match t with
  | TString s => Some (deliver (JString s) stack)
  | TNumber lit => Some (deliver (JNumber lit) stack)
  | TTrue => Some (deliver (JBool true) stack)
  | TFalse => Some (deliver (JBool false) stack)
  | TNull => Some (deliver JNull stack)
  | TLBracket => Some (PArrayStart stack)
  | TLBrace => Some (PObjectStart stack)
  | _ => None
  end.

Definition parse_step (st : parse_state) (t : token) : option parse_state :=
  match st with
  | PValue stack => parse_value stack t
  | PArrayStart stack =>
      match t with
      | TRBracket => Some (deliver (JArray []) stack)
      | _ => parse_value (FArray [] :: stack) t
      end
  | PObjectStart stack =>
      match t with
      | TRBrace => Some (deliver (JObject []) stack)
      | TString k => Some (PColon [] k stack)
      | _ => None
      end
  | PKey entries stack =>
      match t with
      | TString k => Some (PColon entries k stack)
      | _ => None
      end
  | PColon entries key stack =>
      match t with
      | TColon => Some (PValue (FObject entries key :: stack))
      | _ => None
      end
  | PAfterItem items stack =>
      match t with
      | TComma => Some (PValue (FArray items :: stack))
      | TRBracket => Some (deliver (JArray items) stack)
      | _ => None
      end
  | PAfterMember entries stack =>
      match t with
      | TComma => Some (PKey entries stack)
      | TRBrace => Some (deliver (JObject entries) stack)
      | _ => None
      end
  | PDone _ => None
  end.

Fixpoint parse_go (st : parse_state) (ts : list token) : option JSONValue :=
  match ts with
  | [] => match st with PDone v => Some v | _ => None end
  | t :: rest =>
      match parse_step st t with
      | Some st' => parse_go st' rest
      | None => None
      end
  end.

(** [JSON.parse(text)] *)
Definition JSON_parse (text : str) : Result JSONValue :=
  match lex_go LStart text with
  | Some ts =>
      match parse_go (PValue []) ts with
      | Some v => Ok v
      | None => Throw SyntaxError
      end
  | None => Throw SyntaxError
  end.

(** ** ExtractionStrategy *)

(** Strategy 3, lines 165 to 175, over the pairs still to be tried. *)
Fixpoint firstBracketScan (trimmed : str) (pairs : list (char * char)) : Result JSONValue :=
  match pairs with
  | [] => Ok JNull
  | (open, close) :: pairs' =>
      match indexOf trimmed open with
      | Some idx =>
          match extractBalanced trimmed idx open close with
          | Some block => JSON_parse (normalizeToJSON block)
          | None => firstBracketScan trimmed pairs'
          end
      | None => firstBracketScan trimmed pairs'
      end
  end.

Definition bracketPairs : list (char * char) :=
  [(c_lbrace, c_rbrace); (c_lbracket, c_rbracket)].

(** The index [jsonStart] after the loop of line 151. *)
Definition skipWhiteSpaceFrom (trimmed : str) (jsonStart : nat) : nat :=
  (jsonStart + length (takeWhile isWhiteSpace (skipn jsonStart trimmed)))%nat.

(** Strategy 2, lines 148 to 162: the block it extracts, if any. *)
Definition assignmentBlock (trimmed : str) : option str :=
  match indexOf trimmed c_equals with
  | Some eqIdx =>
      let jsonStart := skipWhiteSpaceFrom trimmed (eqIdx + 1) in
      match nth_error trimmed jsonStart with
      | Some opener =>
          if (opener =? c_lbrace) || (opener =? c_lbracket) then
            let closer := if opener =? c_lbrace then c_rbrace else c_rbracket in
            extractBalanced trimmed jsonStart opener closer
          else None
      | None => None
      end
  | None => None
  end.

Definition extractAndParse (raw : str) : Result JSONValue :=
  let trimmed := trim raw in
  if looksLikeJSON trimmed then JSON_parse (normalizeToJSON trimmed)
  else
    match assignmentBlock trimmed with
    | Some block => JSON_parse (normalizeToJSON block)
    | None => firstBracketScan trimmed bracketPairs
    end.

(** ** KeySearch *)

(** [findByKey], lines 183 to 197: [results] is passed in and the array
    after the call is returned.  The loop of line 193 visits [obj[k]] for
    the keys [k] of [Object.keys(obj)] in order, that is the values of the
    entries in order (see [get_own_entry]). *)
Fixpoint findByKey (node : JSONValue) (key : str) (results : list JSONValue)
  : list JSONValue :=
  match node with
  | JArray items =>
      fold_left (fun results item => findByKey item key results) items results
  | JObject obj =>
      let results :=
        if hasOwnProperty obj key then results ++ [node] else results in
      fold_left (fun results e => findByKey (snd e) key results) obj results
  | _ => results
  end.

(** ** Public entry point *)

(** What [rawData] can be at run time: a value, or [undefined]. *)
Inductive JSValue :=
| Undefined
| Value (v : JSONValue).

Inductive js_type := TyUndefined | TyObject | TyString | TyNumber | TyBoolean.

Definition typeof (x : JSValue) : js_type :=
  match x with
  | Undefined => TyUndefined
  | Value (JString _) => TyString
  | Value (JNumber _) => TyNumber
  | Value (JBool _) => TyBoolean
  | Value JNull | Value (JArray _) | Value (JObject _) => TyObject
  end.

Definition js_type_eqb (a b : js_type) : bool :=
  match a, b with
  | TyUndefined, TyUndefined | TyObject, TyObject | TyString, TyString
  | TyNumber, TyNumber | TyBoolean, TyBoolean => true
  | _, _ => false
  end.

(** [rawData !== null] *)
Definition notNull (x : JSValue) : bool :=
  match x with
  | Value JNull => false
  | _ => true
  end.

(** Lines 215 to 221: the value of [parsed] before the key is looked at.
    The inner matches read the value out of [rawData]; their last
    branches are the cases the tests before them exclude. *)
Definition parsedOf (rawData : JSValue) : Result JSONValue :=
  if js_type_eqb (typeof rawData) TyObject && notNull rawData then
    match rawData with
    | Value v => Ok v
    | Undefined => Ok JNull
    end
  else if js_type_eqb (typeof rawData) TyString then
    match rawData with
    | Value (JString s) => extractAndParse (trim s)
    | _ => Ok JNull
    end
  else Ok JNull.

(** [nodeKey] is [None] when the argument is omitted. *)
Definition parseJSON (rawData : JSValue) (nodeKey : option str) : Result JSONValue :=
  match parsedOf rawData with
  | Throw e => Throw e
  | Ok parsed =>
      match nodeKey with
      | None => Ok parsed
      | Some key =>
          match parsed with
          | JNull => Ok (JArray [])
          | _ =>
              let results := findByKey parsed key [] in
              match results with
              | [] => Ok (JArray [])
              | [r] => Ok r
              | _ => Ok (JArray results)
              end
          end
      end
  end.

(** * Specification-side definitions

    The notions the specification states its properties with, written
    from its words; the theorems below compare them with the code. *)

(** The Classifier as the specification words it: the text begins with
    an opening brace, an opening bracket or a double quote, with one of
    the three literals, or with an optional minus and a digit. *)
Definition beginsLikeJSON (t : str) : bool :=
  startsWith t (js "{") || startsWith t (js "[") || startsWith t (js "`")
  || startsWith t (js "true") || startsWith t (js "false")
  || startsWith t (js "null") || test_minus_digit t.

(** The nodes of a value tree in pre-order: a node, then the nodes of its
    elements (array index order) or of its entries' values (key order). *)
Fixpoint subtrees (v : JSONValue) : list JSONValue :=
  v :: match v with
       | JArray items => flat_map subtrees items
       | JObject obj => flat_map (fun e => subtrees (snd e)) obj
       | _ => []
       end.

(** A mapping that owns the key directly. *)
Definition ownsKey (key : str) (v : JSONValue) : bool :=
  match v with
  | JObject obj => hasOwnProperty obj key
  | _ => false
  end.

(** The matching mappings of a tree, in pre-order. *)
Definition matchingMappings (key : str) (v : JSONValue) : list JSONValue :=
  filter (ownsKey key) (subtrees v).

(** [child v w]: [v] is an element of the sequence [w] or the value of an
    entry of the mapping [w]. *)
Inductive child : JSONValue -> JSONValue -> Prop :=
| child_item v items : In v items -> child v (JArray items)
| child_entry k v obj : In (k, v) obj -> child v (JObject obj).

(** [nestedIn v w]: [v] lies strictly inside [w], at any depth. *)
Inductive nestedIn : JSONValue -> JSONValue -> Prop :=
| nested_child v w : child v w -> nestedIn v w
| nested_deeper v u w : nestedIn v u -> child u w -> nestedIn v w.

(** The block strategy 3 locates: the first balanced block of the first
    pair that has one. *)
Fixpoint bracketBlock (trimmed : str) (pairs : list (char * char)) : option str :=
  match pairs with
  | [] => None
  | (open, close) :: pairs' =>
      match indexOf trimmed open with
      | Some idx =>
          match extractBalanced trimmed idx open close with
          | Some block => Some block
          | None => bracketBlock trimmed pairs'
          end
      | None => bracketBlock trimmed pairs'
      end
  end.

(** The extractable block the strategies locate in a trimmed text, in
    their order: the whole text when the Classifier accepts it, else the
    block after the first equals sign, else the first bracketed block. *)
Definition locatedBlock (trimmed : str) : option str :=
  if looksLikeJSON trimmed then Some trimmed
  else match assignmentBlock trimmed with
       | Some block => Some block
       | None => bracketBlock trimmed bracketPairs
       end.

(** The quoting state after a text read from the start index: whether
    it ends inside a double-quoted run, and whether its last character
    is a backslash that escapes the next one. *)
Definition quote_step (st : bool * bool) (ch : char) : bool * bool :=
  if snd st then (fst st, false)
  else if ch =? c_backslash then (fst st, true)
  else if ch =? c_dquote then (negb (fst st), false)
  else (fst st, false).

Definition quoteState (p : str) : bool * bool := fold_left quote_step p (false, false).

(** The character [ch] that follows the text [p] counts toward depth:
    it is outside the quoted runs, not escaped, and neither a backslash
    nor a double quote. *)
Definition counts (p : str) (ch : char) : bool :=
  negb (fst (quoteState p)) && negb (snd (quoteState p))
  && negb (ch =? c_backslash) && negb (ch =? c_dquote).

(** The characters of [p] that count toward depth, by position. *)
Definition countedChars (p : str) : str :=
  flat_map (fun j => match nth_error p j with
                     | Some ch => if counts (firstn j p) ch then [ch] else []
                     | None => []
                     end)
           (seq 0 (length p)).

(** What a counted character adds to the depth: the opening delimiter
    adds one, the closing delimiter takes one away. *)
Definition delta (open close ch : char) : Z :=
  if ch =? open then 1%Z else if ch =? close then (-1)%Z else 0%Z.

Definition depth (open close : char) (p : str) : Z :=
  fold_right Z.add 0%Z (map (delta open close) (countedChars p)).

(** Depth returns to zero at index [i] of the text: a counted closing
    delimiter stands there and the depth from [start] through it is zero. *)
Definition closesAt (text : str) (start : nat) (open close : char) (i : nat) : Prop :=
  (start <= i)%nat
  /\ nth_error text i = Some close
  /\ close <> open
  /\ counts (slice text start i) close = true
  /\ depth open close (slice text start (S i)) = 0%Z.

Definition c6_text : str := js "{`a`: `x{y}z`}".
Definition c6_prose : str := js "data: {`a`: `x{y}z`} end".
Definition c6_value : JSONValue := JObject [(js "a", JString (js "x{y}z"))].

(** The scanning loop read over code units instead of code points; a
    surrogate is none of the characters the loop tests for, so the two
    readings agree (see [scan_Array_from]). *)
Fixpoint scanUnits (m : scan_mode) (s : str) : str :=
  match s with
  | [] => []
  | c :: rest =>
      match m with
      | Normal =>
          if c =? c_squote then c_dquote :: scanUnits InSingle rest
          else if c =? c_dquote then c_dquote :: scanUnits InDouble rest
          else c :: scanUnits Normal rest
      | InSingle =>
          if c =? c_backslash then
            match rest with
            | next :: rest' =>
                if next =? c_squote
                then c_squote :: scanUnits InSingle rest'
                else if next =? c_dquote
                then c_backslash :: c_dquote :: scanUnits InSingle rest'
                else c :: next :: scanUnits InSingle rest'
            | [] => [c]
            end
          else if c =? c_dquote
          then c_backslash :: c_dquote :: scanUnits InSingle rest
          else if c =? c_squote then c_dquote :: scanUnits Normal rest
          else c :: scanUnits InSingle rest
      | InDouble =>
          if c =? c_backslash then
            match rest with
            | next :: rest' => c :: next :: scanUnits InDouble rest'
            | [] => [c]
            end
          else if c =? c_dquote then c_dquote :: scanUnits Normal rest
          else c :: scanUnits InDouble rest
      end
  end.

(** A rewrite pattern matches somewhere in the text. *)
Fixpoint patternOccurs (m : str -> option (str * nat)) (s : str) : bool :=
  match s with
  | [] => false
  | _ :: rest =>
      match m s with
      | Some _ => true
      | None => patternOccurs m rest
      end
  end.

(** The two rewrites applied to what the scanning loop appends when it
    reads [s] in mode [m]; [normalizeToJSON] is the case [Normal]. *)
Definition normalizeFrom (m : scan_mode) (s : str) : str :=
  replaceAll match_trailing_comma 0 (replaceAll match_key 0 (scanUnits m s)).

Definition c8_text : str := js "{a: 1, b: 2}".
Definition c8_value : JSONValue :=
  JObject [(js "a", JNumber (js "1")); (js "b", JNumber (js "2"))].

(** A character the scanning loop does not test for: neither quote nor
    the backslash. *)
Definition untested (c : char) : bool :=
  negb (c =? c_squote) && negb (c =? c_dquote) && negb (c =? c_backslash).









Definition c1_text : str := js "[`a,b:c`]".
Definition c1_comma : str := js "[`a,]`]".
Definition c1_plain : str := js " {`a`: [1, `x y`]} ".

(** A text of assignment form: a left-hand side, an equals sign,
    whitespace, a literal, and whatever follows the literal. *)
Definition assignmentText (lhs ws literal tail : str) : str :=
  lhs ++ c_equals :: ws ++ literal ++ tail.

Definition c9_literal : str := js "{`a`: 1}".
Definition c9_value : JSONValue := JObject [(js "a", JNumber (js "1"))].
Definition c9_quoted_brace : str := js "{'a': '}'}".

(** ** Induction principle and proof-side definitions *)

(** Induction on a value tree, with the hypothesis for every element of
    a sequence and every entry of a mapping. *)
Section JSONValue_induction.
Variable P : JSONValue -> Prop.
Hypothesis HString : forall s, P (JString s).
Hypothesis HNumber : forall lit, P (JNumber lit).
Hypothesis HBool : forall b, P (JBool b).
Hypothesis HNull : P JNull.
Hypothesis HArray : forall items, Forall P items -> P (JArray items).
Hypothesis HObject :
  forall obj, Forall (fun e => P (snd e)) obj -> P (JObject obj).

Fixpoint JSONValue_tree_ind (v : JSONValue) : P v :=
  match v with
  | JString s => HString s
  | JNumber lit => HNumber lit
  | JBool b => HBool b
  | JNull => HNull
  | JArray items =>
      HArray items
        ((fix all (l : list JSONValue) : Forall P l :=
            match l with
            | [] => Forall_nil _
            | x :: l' => Forall_cons x (JSONValue_tree_ind x) (all l')
            end) items)
  | JObject obj =>
      HObject obj
        ((fix all (l : list (str * JSONValue)) : Forall (fun e => P (snd e)) l :=
            match l with
            | [] => Forall_nil _
            | e :: l' => Forall_cons e (JSONValue_tree_ind (snd e)) (all l')
            end) obj)
  end.
End JSONValue_induction.

Definition c2_input : str := js "truex".

Definition c3_mapping : JSONValue := JObject [(js "a", JNumber (js "1"))].

Definition c5_inner : list (str * JSONValue) := [(js "k", JNumber (js "2"))].
Definition c5_outer : list (str * JSONValue) :=
  [(js "k", JNumber (js "1")); (js "in", JArray [JObject c5_inner])].

Definition c4_prose : str := js "no value in this text".
Definition c4_broken : str := js "x = {`a`: }".

(** Depth returns to zero at position [n] of the text [s] read from its
    first character. *)
Definition closes (open close : char) (s : str) (n : nat) : Prop :=
  nth_error s n = Some close
  /\ close <> open
  /\ counts (firstn n s) close = true
  /\ depth open close (firstn (S n) s) = 0%Z.

(** A character the quoting state keeps out of the count adds nothing to
    the depth and cannot be where depth returns to zero. *)
Ltac not_counted Hcounts :=
  rewrite Hcounts; simpl; rewrite ?andb_false_r; simpl; lia.
Ltac no_close_here Hcounts :=
  let Hc := fresh "Hc" in
  intros (-> & _ & Hc & _); rewrite Hcounts in Hc; simpl in Hc;
  rewrite ?andb_false_r in Hc; discriminate.

(** Boolean tests on characters, turned into arithmetic. *)
Ltac char_facts :=
  unfold isHighSurrogate, isLowSurrogate, isWhiteSpace, isJSONWhiteSpace,
    isDigit, isIdentPart, isIdentStart, isExponentMark,
    c_squote, c_dquote, c_backslash, c_lbrace, c_rbrace, c_lbracket,
    c_rbracket, c_comma, c_colon, c_minus, c_equals in *;
  repeat match goal with
    | H : _ && _ = true |- _ => apply andb_true_iff in H; destruct H
    | H : _ || _ = true |- _ => apply orb_true_iff in H; destruct H
    | H : _ || _ = false |- _ => apply orb_false_iff in H; destruct H
    | H : negb _ = true |- _ => apply negb_true_iff in H
    | H : negb _ = false |- _ => apply negb_false_iff in H
    | H : (_ =? _) = true |- _ => apply N.eqb_eq in H
    | H : (_ =? _) = false |- _ => apply N.eqb_neq in H
    | H : (_ <=? _) = true |- _ => apply N.leb_le in H
    | H : (_ <=? _) = false |- _ => apply N.leb_gt in H
    | H : (_ <? _) = true |- _ => apply N.ltb_lt in H
    | H : (_ <? _) = false |- _ => apply N.ltb_ge in H
    end.

Ltac char_lia := char_facts; subst; try discriminate; try lia.

(** Every match attempted inside [A] is the same whether or not [B]
    follows, and ends inside [A]. *)
Fixpoint matchesLocal (m : str -> option (str * nat)) (A B : str) : Prop :=
  match A with
  | [] => True
  | _ :: A' =>
      m (A ++ B) = m A
      /\ (forall repl len, m A = Some (repl, len) -> (1 <= len <= length A)%nat)
      /\ matchesLocal m A' B
  end.


Definition is_bracket (t : token) : bool :=
  match t with
  | TLBrace | TRBrace | TLBracket | TRBracket => true
  | _ => false
  end.

(** The states the lexer reaches expect only lower-case letters, for a
    token that is a literal. *)
Definition wordChar (c : char) : bool := (97 <=? c) && (c <=? 122).

Definition lex_state_ok (st : lex_state) : Prop :=
  match st with
  | LWord expect t => forallb wordChar expect = true /\ is_bracket t = false
  | _ => True
  end.

(** The states outside a string. *)
Definition outsideString (st : lex_state) : bool :=
  match st with
  | LStart | LNumber _ _ | LWord _ _ => true
  | _ => false
  end.

Ltac prove_untested :=
  unfold untested;
  match goal with
  | |- negb (?c =? _) && _ && _ = true =>
      destruct (c =? c_squote) eqn:?; [exfalso; char_lia|];
      destruct (c =? c_dquote) eqn:?; [exfalso; char_lia|];
      destruct (c =? c_backslash) eqn:?; [exfalso; char_lia|];
      reflexivity
  end.

(** Case analysis of a conditional chain that returned a result. *)
Ltac split_ifs H :=
  repeat match type of H with
    | (if ?b then _ else _) = _ => destruct b eqn:?
    end.

(** What the loop does on text the lexer is reading in state [st]: it
    copies it. *)
Definition scanStable (st : lex_state) (s : str) : Prop :=
  match st with
  | LEscape _ => scanUnits InDouble (c_backslash :: s) = c_backslash :: s
  | LString _ | LUnicode _ _ => scanUnits InDouble s = s
  | _ => scanUnits Normal s = s
  end.

(** A match found in a text is found in every extension of the text. *)
Definition extends (m : str -> option (str * nat)) : Prop :=
  forall A W r, m A = Some r -> m (A ++ W) = Some r.

(** The body of the Classifier, after its [trimStart]. *)
Definition classify (t : str) : bool :=
  startsWith t (js "{") || startsWith t (js "[") || startsWith t (js "`")
  || str_eqb t (js "true") || str_eqb t (js "false") || str_eqb t (js "null")
  || test_minus_digit t.

(** The two kinds of container, with their delimiters. *)
Inductive kind := KObject | KArray.

Definition kind_eqb (a b : kind) : bool :=
  match a, b with
  | KObject, KObject | KArray, KArray => true
  | _, _ => false
  end.

Definition opener_of (k : kind) : char :=
  match k with KObject => c_lbrace | KArray => c_lbracket end.

Definition closer_of (k : kind) : char :=
  match k with KObject => c_rbrace | KArray => c_rbracket end.

Definition frame_kind (f : frame) : kind :=
  match f with
  | FArray _ => KArray
  | FObject _ _ => KObject
  end.

(** The containers that are open in a state of the parser, innermost
    first. *)
Definition chain (ps : parse_state) : list kind :=
  match ps with
  | PValue stack => map frame_kind stack
  | PArrayStart stack | PAfterItem _ stack => KArray :: map frame_kind stack
  | PObjectStart stack | PKey _ stack | PColon _ _ stack | PAfterMember _ stack =>
      KObject :: map frame_kind stack
  | PDone _ => []
  end.

(** What a token does to the open containers. *)
Definition token_step (t : token) (ch : list kind) : list kind :=
  match t with
  | TLBrace => KObject :: ch
  | TLBracket => KArray :: ch
  | TRBrace | TRBracket => tl ch
  | _ => ch
  end.

(** A closing token closes a container of its kind. *)
Definition closer_ok (t : token) (ch : list kind) : Prop :=
  match t with
  | TRBrace => hd_error ch = Some KObject
  | TRBracket => hd_error ch = Some KArray
  | _ => True
  end.

(** The open containers before and after a run of bracket tokens. *)
Fixpoint brackets_lead (bs : list token) (ch ch' : list kind) : Prop :=
  match bs with
  | [] => ch' = ch
  | b :: bs' => closer_ok b ch /\ brackets_lead bs' (token_step b ch) ch'
  end.

Definition bracket_of_char (c : char) : list token :=
  if c =? c_lbrace then [TLBrace]
  else if c =? c_rbrace then [TRBrace]
  else if c =? c_lbracket then [TLBracket]
  else if c =? c_rbracket then [TRBracket]
  else [].

Definition kcount (k : kind) (ch : list kind) : nat :=
  length (filter (kind_eqb k) ch).

(** The flags of [extractBalanced] that correspond to a lexer state. *)
Definition inString_of (st : lex_state) : bool :=
  match st with
  | LString _ | LEscape _ | LUnicode _ _ => true
  | _ => false
  end.

Definition escape_of (st : lex_state) : bool :=
  match st with
  | LEscape _ => true
  | _ => false
  end.

(** The parser run over the tokens one character gave. *)
Fixpoint parse_steps (ps : parse_state) (ts : list token) : option parse_state :=
  match ts with
  | [] => Some ps
  | t :: rest =>
      match parse_step ps t with
      | Some ps' => parse_steps ps' rest
      | None => None
      end
  end.

(** The text does not end with whitespace. *)
Definition noTrailing (s : str) : Prop :=
  forall A w, s = A ++ [w] -> isWhiteSpace w = false.

(** The outermost open container is of kind [k]. *)
Definition rooted (k : kind) (ch : list kind) : Prop :=
  exists pre, ch = pre ++ [k].

(** What the keyed entry point returns for a decoded value. *)
Definition keyedResult (key : str) (v : JSONValue) : JSONValue :=
  match matchingMappings key v with
  | [] => JArray []
  | [m] => m
  | ms => JArray ms
  end.


Definition x_object : str := js "{`a`: [1, {`b`: `}`}]}".
Definition x_object_value : JSONValue :=
  JObject [(js "a", JArray [JNumber (js "1");
                            JObject [(js "b", JString (js "}"))]])].





Definition x_padded_inner : str := js "x = [1, 2]".


(** A text of an assignment form with no brace and no bracket: a closing
    brace, an equals sign and quotes, but nothing to extract. *)
Definition x_plain_prose : str := js "  result = 'done' } ok ".

(** * Properties *)

(** ** Strings *)

Lemma str_eqb_eq (a b : str) : str_eqb a b = true <-> a = b.
Proof.
  revert b; induction a as [|x a IH]; intros [|y b]; simpl;
    try (split; [discriminate | discriminate]); try tauto.
  rewrite andb_true_iff, N.eqb_eq, IH.
  split; [intros [-> ->]; reflexivity | intros H; inversion H; auto].
Qed.

Lemma str_eqb_refl (a : str) : str_eqb a a = true.
Proof. apply str_eqb_eq; reflexivity. Qed.

Lemma startsWith_char (t : str) (c : char) :
  startsWith t [c] = true <-> exists rest, t = c :: rest.
Proof.
  destruct t as [|y t]; simpl.
  - split; [discriminate | intros [r H]; discriminate].
  - assert (E : startsWith t [] = true) by (destruct t; reflexivity).
    rewrite E, andb_true_r, N.eqb_eq. split.
    + intros ->; eauto.
    + intros [r H]; inversion H; reflexivity.
Qed.

Lemma test_minus_digit_iff (t : str) :
  test_minus_digit t = true <->
  (exists d rest, t = d :: rest /\ isDigit d = true)
  \/ (exists d rest, t = c_minus :: d :: rest /\ isDigit d = true).
Proof.
  destruct t as [|c t]; simpl.
  - split; [discriminate | intros [(d & r & H & _) | (d & r & H & _)]; discriminate].
  - destruct (c =? c_minus) eqn:E.
    + apply N.eqb_eq in E; subst c. destruct t as [|d t].
      * split; [discriminate|].
        intros [(d & r & H & Hd) | (d & r & H & _)]; [|discriminate].
        inversion H; subst; discriminate.
      * split.
        -- intros Hd; right; eauto.
        -- intros [(d' & r & H & Hd) | (d' & r & H & Hd)]; inversion H; subst;
             [discriminate | assumption].
    + split.
      * intros Hd; left; eauto.
      * intros [(d' & r & H & Hd) | (d' & r & H & Hd)]; inversion H; subst;
          [assumption | rewrite N.eqb_refl in E; discriminate].
Qed.

(** ** Classifier *)

(** C2, as stated, fails: [truex] has no leading whitespace and begins
    with the literal [true], yet the Classifier rejects it, because the
    code compares the whole text with each literal. *)
Lemma looksLikeJSON_not_prefix_of_literal :
  trimStart c2_input = c2_input
  /\ beginsLikeJSON c2_input = true
  /\ looksLikeJSON c2_input = false.
Proof. repeat split; vm_compute; reflexivity. Qed.

(** C2 (amended): on a text with no leading whitespace the Classifier
    answers true exactly when the text begins with an opening brace, an
    opening bracket or a double quote, IS one of the literals [true],
    [false], [null], or begins with a digit or with a minus and a digit. *)
Theorem looksLikeJSON_iff (s : str) :
  trimStart s = s ->
  looksLikeJSON s = true <->
  (exists c rest, s = c :: rest
     /\ (c = c_lbrace \/ c = c_lbracket \/ c = c_dquote))
  \/ s = js "true" \/ s = js "false" \/ s = js "null"
  \/ (exists d rest, s = d :: rest /\ isDigit d = true)
  \/ (exists d rest, s = c_minus :: d :: rest /\ isDigit d = true).
Proof.
  intros Htrim. unfold looksLikeJSON. rewrite Htrim.
  rewrite !orb_true_iff, !str_eqb_eq, test_minus_digit_iff.
  change (js "{") with [c_lbrace]. change (js "[") with [c_lbracket].
  change (js "`") with [c_dquote]. rewrite !startsWith_char.
  split.
  - intros [[[[[[[r H] | [r H]] | [r H]] | H] | H] | H] | H]; eauto 8; tauto.
  - intros [(c & r & H & [Hc | [Hc | Hc]]) | [H | [H | [H | H]]]]; subst; eauto 10.
Qed.

Lemma looksLikeJSON_iff_witness :
  looksLikeJSON (js "true") = true <->
  (exists c rest, js "true" = c :: rest
     /\ (c = c_lbrace \/ c = c_lbracket \/ c = c_dquote))
  \/ js "true" = js "true" \/ js "true" = js "false" \/ js "true" = js "null"
  \/ (exists d rest, js "true" = d :: rest /\ isDigit d = true)
  \/ (exists d rest, js "true" = c_minus :: d :: rest /\ isDigit d = true).
Proof. apply (looksLikeJSON_iff (js "true")). reflexivity. Defined.

(** ** Values and key search *)

(** In an object whose keys are distinct, the value of an entry is what
    [obj[k]] reads for its key: line 194 visits the entries' values. *)
Lemma get_own_entry (obj : list (str * JSONValue)) (k : str) (v : JSONValue) :
  NoDup (Object_keys obj) -> In (k, v) obj -> get obj k = Some v.
Proof.
  unfold Object_keys.
  induction obj as [|[k' v'] obj IH]; simpl; intros Hnd Hin; [contradiction|].
  inversion Hnd as [|? ? Hnotin Hnd']; subst.
  destruct Hin as [Heq | Hin].
  - inversion Heq; subst. rewrite str_eqb_refl. reflexivity.
  - destruct (str_eqb k' k) eqn:E.
    + apply str_eqb_eq in E; subst k'. exfalso; apply Hnotin.
      apply (in_map fst) in Hin. exact Hin.
    + auto.
Qed.

Lemma fold_findByKey_items (key : str) (items : list JSONValue) :
  Forall (fun v => forall res, findByKey v key res = res ++ matchingMappings key v) items ->
  forall res,
    fold_left (fun results item => findByKey item key results) items res
    = res ++ filter (ownsKey key) (flat_map subtrees items).
Proof.
  induction 1 as [|v items Hv _ IH]; intros res; simpl.
  - rewrite app_nil_r; reflexivity.
  - rewrite IH, Hv, filter_app, <- app_assoc. reflexivity.
Qed.

Lemma fold_findByKey_entries (key : str) (obj : list (str * JSONValue)) :
  Forall (fun e => forall res, findByKey (snd e) key res
                               = res ++ matchingMappings key (snd e)) obj ->
  forall res,
    fold_left (fun results e => findByKey (snd e) key results) obj res
    = res ++ filter (ownsKey key) (flat_map (fun e => subtrees (snd e)) obj).
Proof.
  induction 1 as [|e obj He _ IH]; intros res; simpl.
  - rewrite app_nil_r; reflexivity.
  - rewrite IH, He, filter_app, <- app_assoc. reflexivity.
Qed.

(** [findByKey] appends the matching mappings of the node, in pre-order,
    to the results it was given. *)
Lemma findByKey_matching (key : str) (v : JSONValue) :
  forall res, findByKey v key res = res ++ matchingMappings key v.
Proof.
  induction v using JSONValue_tree_ind; intros res;
    try (simpl; rewrite app_nil_r; reflexivity).
  - simpl. rewrite (fold_findByKey_items key items H). reflexivity.
  - unfold matchingMappings. simpl findByKey. simpl subtrees. simpl filter.
    rewrite (fold_findByKey_entries key obj H).
    destruct (hasOwnProperty obj key); [rewrite <- app_assoc|]; reflexivity.
Qed.

Lemma matchingMappings_own (key : str) (v m : JSONValue) :
  In m (matchingMappings key v) ->
  exists obj, m = JObject obj /\ hasOwnProperty obj key = true.
Proof.
  unfold matchingMappings. rewrite filter_In. intros [_ Hm].
  destruct m; try discriminate. eauto.
Qed.

Lemma flat_map_in_split {A B} (f : A -> list B) (x : A) (l : list A) :
  In x l -> exists a b, flat_map f l = a ++ f x ++ b.
Proof.
  intros Hin. apply in_split in Hin. destruct Hin as (l1 & l2 & ->).
  rewrite flat_map_app. simpl. eauto.
Qed.

Lemma child_subtrees (v w : JSONValue) :
  child v w -> exists a b, subtrees w = w :: a ++ subtrees v ++ b.
Proof.
  intros [v' items Hin | k v' obj Hin]; simpl.
  - destruct (flat_map_in_split subtrees v' items Hin) as (a & b & ->). eauto.
  - destruct (flat_map_in_split (fun e => subtrees (snd e)) (k, v') obj Hin)
      as (a & b & ->). eauto.
Qed.

Lemma nestedIn_subtrees (v w : JSONValue) :
  nestedIn v w -> exists a b, subtrees w = w :: a ++ subtrees v ++ b.
Proof.
  induction 1 as [v w Hc | v u w _ IH Hc].
  - apply child_subtrees; assumption.
  - destruct IH as (a & b & Hu).
    destruct (child_subtrees u w Hc) as (a' & b' & Hw).
    rewrite Hw, Hu. exists (a' ++ u :: a), (b ++ b').
    simpl. rewrite <- !app_assoc. reflexivity.
Qed.

Lemma subtrees_head (v : JSONValue) : exists t, subtrees v = v :: t.
Proof. destruct v; simpl; eauto. Qed.

Lemma parsedOf_container_or_text (rawData : JSValue) (parsed : JSONValue) :
  parsedOf rawData = Ok parsed ->
  forall key,
    parseJSON rawData (Some key)
    = Ok match matchingMappings key parsed with
         | [] => JArray []
         | [m] => m
         | ms => JArray ms
         end.
Proof.
  intros Hp key. unfold parseJSON. rewrite Hp.
  rewrite findByKey_matching. simpl app.
  destruct parsed; try reflexivity.
  - destruct (matchingMappings key (JArray items)) as [|m [|m' ms]]; reflexivity.
  - destruct (matchingMappings key (JObject entries)) as [|m [|m' ms]]; reflexivity.
Qed.

(** C3: the keyed entry point returns the empty collection when no
    mapping of the decoded value owns the key, the mapping itself when
    exactly one does, and the pre-order collection of the matching
    mappings when two or more do. *)
Theorem parseJSON_keyed_shape (rawData : JSValue) (key : str) (parsed : JSONValue) :
  parsedOf rawData = Ok parsed ->
  (matchingMappings key parsed = [] ->
     parseJSON rawData (Some key) = Ok (JArray []))
  /\ (forall m, matchingMappings key parsed = [m] ->
        parseJSON rawData (Some key) = Ok m)
  /\ (forall m1 m2 ms, matchingMappings key parsed = m1 :: m2 :: ms ->
        parseJSON rawData (Some key) = Ok (JArray (m1 :: m2 :: ms))).
Proof.
  intros Hp. pose proof (parsedOf_container_or_text rawData parsed Hp key) as H.
  repeat split; intros; rewrite H; match goal with E : _ = _ |- _ => rewrite E end;
    reflexivity.
Qed.

Lemma parseJSON_keyed_shape_witness :
  parseJSON (Value c3_mapping) (Some (js "a")) = Ok c3_mapping.
Proof.
  apply (proj1 (proj2 (parseJSON_keyed_shape (Value c3_mapping) (js "a")
                         c3_mapping eq_refl))).
  reflexivity.
Defined.

(** C5: when a mapping of the tree owns the key and a mapping nested in
    it owns the key too, the search returns both, the outer one first;
    the keyed entry point returns that collection. *)
Theorem findByKey_outer_before_inner
    (root : JSONValue) (key : str) (outer inner : list (str * JSONValue)) :
  root = JObject outer \/ nestedIn (JObject outer) root ->
  nestedIn (JObject inner) (JObject outer) ->
  hasOwnProperty outer key = true ->
  hasOwnProperty inner key = true ->
  exists l1 l2 l3,
    findByKey root key [] = l1 ++ JObject outer :: l2 ++ JObject inner :: l3
    /\ forall rawData, parsedOf rawData = Ok root ->
         parseJSON rawData (Some key)
         = Ok (JArray (l1 ++ JObject outer :: l2 ++ JObject inner :: l3)).
Proof.
  intros Hroot Hin Ho Hi.
  assert (Houter : exists a b,
             matchingMappings key (JObject outer)
             = JObject outer :: a ++ JObject inner :: b).
  { destruct (nestedIn_subtrees _ _ Hin) as (a & b & Hs).
    destruct (subtrees_head (JObject inner)) as (t & Ht).
    unfold matchingMappings. rewrite Hs, Ht. simpl. rewrite Ho.
    rewrite filter_app. simpl. rewrite Hi. rewrite filter_app. eauto. }
  destruct Houter as (a & b & Hm).
  assert (Hall : exists l1 l3,
             matchingMappings key root
             = l1 ++ JObject outer :: a ++ JObject inner :: l3).
  { destruct Hroot as [-> | Hn].
    - exists [], b. exact Hm.
    - destruct (nestedIn_subtrees _ _ Hn) as (x & y & Hs).
      unfold matchingMappings in *. rewrite Hs.
      change (root :: x ++ subtrees (JObject outer) ++ y)
        with ((root :: x) ++ subtrees (JObject outer) ++ y).
      rewrite !filter_app, Hm.
      exists (filter (ownsKey key) (root :: x)), (b ++ filter (ownsKey key) y).
      simpl. rewrite <- !app_assoc. reflexivity. }
  destruct Hall as (l1 & l3 & Hr).
  exists l1, a, l3. split.
  - rewrite findByKey_matching. exact Hr.
  - intros rawData Hp. rewrite (parsedOf_container_or_text rawData root Hp key), Hr.
    destruct l1 as [|x [|y l1]]; simpl; try reflexivity.
    destruct a; reflexivity.
Qed.

Lemma c5_inner_nested : nestedIn (JObject c5_inner) (JObject c5_outer).
Proof.
  apply nested_deeper with (u := JArray [JObject c5_inner]).
  - apply nested_child, child_item. left; reflexivity.
  - apply child_entry with (k := js "in"). right; left; reflexivity.
Defined.

Lemma findByKey_outer_before_inner_witness :
  exists l1 l2 l3,
    findByKey (JObject c5_outer) (js "k") []
    = l1 ++ JObject c5_outer :: l2 ++ JObject c5_inner :: l3
    /\ forall rawData, parsedOf rawData = Ok (JObject c5_outer) ->
         parseJSON rawData (Some (js "k"))
         = Ok (JArray (l1 ++ JObject c5_outer :: l2 ++ JObject c5_inner :: l3)).
Proof.
  apply (findByKey_outer_before_inner (JObject c5_outer) (js "k") c5_outer c5_inner).
  - left; reflexivity.
  - exact c5_inner_nested.
  - reflexivity.
  - reflexivity.
Defined.

(** C10: raw data that is neither a string nor a non-null object ([null],
    [undefined], a number, a boolean) is not used as a decoded value: the
    unkeyed call returns [null] and the keyed call the empty collection. *)
Theorem parseJSON_neither_text_nor_object (rawData : JSValue) :
  typeof rawData <> TyString ->
  typeof rawData <> TyObject \/ rawData = Value JNull ->
  parseJSON rawData None = Ok JNull
  /\ forall key, parseJSON rawData (Some key) = Ok (JArray []).
Proof.
  intros Hs Ho.
  destruct rawData as [|[s|lit|b| |items|obj]]; simpl in *;
    try (split; [reflexivity | intros; reflexivity]);
    try (exfalso; apply Hs; reflexivity);
    destruct Ho as [Ho | Ho]; try discriminate; exfalso; apply Ho; reflexivity.
Qed.

Lemma parseJSON_neither_text_nor_object_witness :
  parseJSON (Value JNull) None = Ok JNull
  /\ forall key, parseJSON (Value JNull) (Some key) = Ok (JArray []).
Proof.
  apply (parseJSON_neither_text_nor_object (Value JNull)).
  - discriminate.
  - right; reflexivity.
Defined.

(** ** Trimming *)

Lemma dropWhile_head (p : char -> bool) (s r : str) (c : char) :
  dropWhile p s = c :: r -> p c = false.
Proof.
  induction s as [|x s IH]; simpl; [discriminate|].
  destruct (p x) eqn:E; [exact IH|].
  intros H; inversion H; subst; exact E.
Qed.

Lemma trimEnd_cons_kept (c : char) (s : str) :
  isWhiteSpace c = false -> trimEnd (c :: s) = c :: trimEnd s.
Proof. intros H. simpl. rewrite H. destruct (trimEnd s); reflexivity. Qed.

Lemma trimEnd_idempotent (s : str) : trimEnd (trimEnd s) = trimEnd s.
Proof.
  induction s as [|c s IH]; [reflexivity|].
  simpl. destruct (trimEnd s) as [|k ks] eqn:E.
  - destruct (isWhiteSpace c) eqn:Ec; [reflexivity|].
    simpl. rewrite Ec. reflexivity.
  - change (trimEnd (c :: k :: ks))
      with (match trimEnd (k :: ks) with
            | [] => if isWhiteSpace c then [] else [c]
            | kept => c :: kept
            end).
    rewrite IH. reflexivity.
Qed.

Lemma trim_head (s : str) :
  trim s = [] \/ exists c r, trim s = c :: r /\ isWhiteSpace c = false.
Proof.
  unfold trim, trimStart. destruct (dropWhile isWhiteSpace s) as [|c r] eqn:E.
  - left; reflexivity.
  - right. pose proof (dropWhile_head _ _ _ _ E) as Hc.
    rewrite (trimEnd_cons_kept c r Hc). eauto.
Qed.

Lemma trimStart_trim (s : str) : trimStart (trim s) = trim s.
Proof.
  destruct (trim_head s) as [-> | (c & r & -> & Hc)]; [reflexivity|].
  unfold trimStart; simpl. rewrite Hc. reflexivity.
Qed.

Lemma trim_idempotent (s : str) : trim (trim s) = trim s.
Proof.
  unfold trim at 1. rewrite trimStart_trim.
  unfold trim. apply trimEnd_idempotent.
Qed.

(** ** Strategies *)

Lemma firstBracketScan_located (trimmed : str) (pairs : list (char * char)) :
  firstBracketScan trimmed pairs
  = match bracketBlock trimmed pairs with
    | Some block => JSON_parse (normalizeToJSON block)
    | None => Ok JNull
    end.
Proof.
  induction pairs as [|[open close] pairs IH]; simpl; [reflexivity|].
  destruct (indexOf trimmed open) as [idx|]; [|exact IH].
  destruct (extractBalanced trimmed idx open close); [reflexivity | exact IH].
Qed.

(** Extraction decodes the located block, and answers [null] without
    calling the decoder when there is none. *)
Lemma extractAndParse_located (raw : str) :
  extractAndParse raw
  = match locatedBlock (trim raw) with
    | Some block => JSON_parse (normalizeToJSON block)
    | None => Ok JNull
    end.
Proof.
  unfold extractAndParse, locatedBlock.
  destruct (looksLikeJSON (trim raw)); [reflexivity|].
  destruct (assignmentBlock (trim raw)); [reflexivity|].
  apply firstBracketScan_located.
Qed.

Lemma parsedOf_text (s : str) :
  parsedOf (Value (JString s))
  = match locatedBlock (trim s) with
    | Some block => JSON_parse (normalizeToJSON block)
    | None => Ok JNull
    end.
Proof.
  change (parsedOf (Value (JString s))) with (extractAndParse (trim s)).
  rewrite extractAndParse_located, trim_idempotent. reflexivity.
Qed.

(** C4: when no strategy locates a block in the text, the unkeyed call
    returns [null] and the keyed call the empty collection, and nothing
    is raised; when a block is located and the decoder rejects its
    normalized text, the decoder's error leaves the entry point, with or
    without a key. *)
Theorem parseJSON_absence_or_decode_error (s : str) :
  (locatedBlock (trim s) = None ->
     parseJSON (Value (JString s)) None = Ok JNull
     /\ forall key, parseJSON (Value (JString s)) (Some key) = Ok (JArray []))
  /\ (forall block e,
        locatedBlock (trim s) = Some block ->
        JSON_parse (normalizeToJSON block) = Throw e ->
        forall nodeKey, parseJSON (Value (JString s)) nodeKey = Throw e).
Proof.
  split.
  - intros Hnone. unfold parseJSON. rewrite parsedOf_text, Hnone.
    split; [reflexivity | intros key; reflexivity].
  - intros block e Hsome Hthrow nodeKey.
    unfold parseJSON. rewrite parsedOf_text, Hsome, Hthrow. reflexivity.
Qed.

Lemma parseJSON_absence_or_decode_error_witness :
  (parseJSON (Value (JString c4_prose)) None = Ok JNull
   /\ forall key, parseJSON (Value (JString c4_prose)) (Some key) = Ok (JArray []))
  /\ forall nodeKey,
       parseJSON (Value (JString c4_broken)) nodeKey = Throw SyntaxError.
Proof.
  split.
  - apply (proj1 (parseJSON_absence_or_decode_error c4_prose)).
    vm_compute; reflexivity.
  - apply (proj2 (parseJSON_absence_or_decode_error c4_broken)
             (js "{`a`: }") SyntaxError).
    + vm_compute; reflexivity.
    + vm_compute; reflexivity.
Defined.

(** ** BalancedExtractor *)

Lemma quoteState_snoc (p : str) (ch : char) :
  quoteState (p ++ [ch]) = quote_step (quoteState p) ch.
Proof. unfold quoteState. rewrite fold_left_app. reflexivity. Qed.

Lemma flat_map_ext_in {A B} (f g : A -> list B) (l : list A) :
  (forall a, In a l -> f a = g a) -> flat_map f l = flat_map g l.
Proof.
  induction l as [|a l IH]; intros H; simpl; [reflexivity|].
  rewrite (H a (or_introl eq_refl)), IH; [reflexivity|].
  intros b Hb; apply H; right; exact Hb.
Qed.

Lemma countedChars_snoc (p : str) (ch : char) :
  countedChars (p ++ [ch])
  = countedChars p ++ (if counts p ch then [ch] else []).
Proof.
  unfold countedChars. rewrite length_app. simpl length.
  rewrite Nat.add_1_r, seq_S, flat_map_app. simpl. f_equal.
  - apply flat_map_ext_in. intros j Hj. apply in_seq in Hj.
    rewrite nth_error_app1 by lia.
    rewrite firstn_app. replace (j - length p)%nat with O by lia.
    simpl. rewrite app_nil_r. reflexivity.
  - rewrite nth_error_app2 by lia. rewrite Nat.sub_diag. simpl.
    rewrite firstn_app, Nat.sub_diag, firstn_all. simpl.
    rewrite !app_nil_r. reflexivity.
Qed.

Lemma depth_snoc (open close : char) (p : str) (ch : char) :
  depth open close (p ++ [ch])
  = (depth open close p + if counts p ch then delta open close ch else 0)%Z.
Proof.
  unfold depth. rewrite countedChars_snoc, map_app, fold_right_app.
  generalize (map (delta open close) (countedChars p)) as l.
  destruct (counts p ch); simpl; induction l as [|x l IH]; simpl; lia.
Qed.

Lemma firstn_snoc_nth (s : str) (n : nat) (ch : char) :
  nth_error s n = Some ch -> firstn (S n) s = firstn n s ++ [ch].
Proof.
  revert n; induction s as [|x s IH]; intros [|n] H; try discriminate.
  - inversion H; reflexivity.
  - change (x :: firstn (S n) s = x :: firstn n s ++ [ch]).
    f_equal. apply IH. exact H.
Qed.

Lemma closes_here (open close : char) (done rest : str) (ch : char) :
  closes open close (done ++ ch :: rest) (length done)
  <-> ch = close /\ close <> open /\ counts done close = true
      /\ (depth open close done - 1 = 0)%Z.
Proof.
  unfold closes.
  assert (Hn : nth_error (done ++ ch :: rest) (length done) = Some ch).
  { rewrite nth_error_app2 by lia. rewrite Nat.sub_diag. reflexivity. }
  rewrite (firstn_snoc_nth _ _ _ Hn), Hn.
  rewrite firstn_app, Nat.sub_diag, firstn_all. simpl. rewrite app_nil_r.
  rewrite depth_snoc. split.
  - intros (H1 & H2 & H3 & H4). inversion H1; subst ch.
    rewrite H3 in H4. unfold delta in H4.
    assert (E : (close =? open) = false) by (apply N.eqb_neq; exact H2).
    rewrite E, N.eqb_refl in H4. repeat split; auto; lia.
  - intros (-> & H2 & H3 & H4). rewrite H3. unfold delta.
    assert (E : (close =? open) = false) by (apply N.eqb_neq; exact H2).
    rewrite E, N.eqb_refl. repeat split; auto; lia.
Qed.

Section Loop.
Variables (text : str) (start : nat) (open close : char).

(** The invariant of the loop: [done] is the text already read, the
    flags are its quoting state and [d] its depth. *)
Lemma extractBalanced_loop_spec (rest : str) :
  forall (done : str) (d : Z) (inString escape : bool),
    quoteState done = (inString, escape) ->
    depth open close done = d ->
    match extractBalanced_loop text start open close rest
            (start + length done) d inString escape with
    | Some block =>
        exists n, (length done <= n)%nat
          /\ closes open close (done ++ rest) n
          /\ (forall j, (length done <= j < n)%nat ->
                ~ closes open close (done ++ rest) j)
          /\ block = slice text start (S (start + n))
    | None =>
        forall n, (length done <= n)%nat -> ~ closes open close (done ++ rest) n
    end.
Proof.
  induction rest as [|ch rest IH]; intros done d inString escape Hq Hd.
  - simpl. intros n Hn (Hnth & _). rewrite app_nil_r in Hnth.
    assert (n < length done)%nat; [|lia].
    apply nth_error_Some. congruence.
  - assert (Hnext : forall d' inS' esc',
               quote_step (inString, escape) ch = (inS', esc') ->
               (d + (if counts done ch then delta open close ch else 0))%Z = d' ->
               ~ (ch = close /\ close <> open /\ counts done close = true
                  /\ (depth open close done - 1 = 0)%Z) ->
               match extractBalanced_loop text start open close rest
                       (S (start + length done)) d' inS' esc' with
               | Some block =>
                   exists n, (length done <= n)%nat
                     /\ closes open close (done ++ ch :: rest) n
                     /\ (forall j, (length done <= j < n)%nat ->
                           ~ closes open close (done ++ ch :: rest) j)
                     /\ block = slice text start (S (start + n))
               | None =>
                   forall n, (length done <= n)%nat ->
                             ~ closes open close (done ++ ch :: rest) n
               end).
    { intros d' inS' esc' Hstep Hd' Hnot.
      specialize (IH (done ++ [ch]) d' inS' esc').
      rewrite quoteState_snoc, Hq, depth_snoc, Hd in IH.
      specialize (IH Hstep Hd').
      rewrite length_app in IH. simpl length in IH.
      replace (start + (length done + 1))%nat with (S (start + length done)) in IH by lia.
      rewrite <- app_assoc in IH. simpl app in IH.
      destruct (extractBalanced_loop text start open close rest
                  (S (start + length done)) d' inS' esc') as [block|].
      - destruct IH as (n & Hn & Hc & Hmin & Hb).
        exists n. split; [lia|]. split; [exact Hc|]. split; [|exact Hb].
        intros j Hj. destruct (Nat.eq_dec j (length done)) as [-> | Hne];
          [rewrite closes_here; exact Hnot | apply Hmin; lia].
      - intros n Hn. destruct (Nat.eq_dec n (length done)) as [-> | Hne];
          [rewrite closes_here; exact Hnot | apply IH; lia]. }
    assert (Hcounts : counts done ch
                      = negb inString && negb escape
                        && negb (ch =? c_backslash) && negb (ch =? c_dquote)).
    { unfold counts. rewrite Hq. reflexivity. }
    simpl extractBalanced_loop.
    destruct escape.
    { apply Hnext; [reflexivity | not_counted Hcounts | no_close_here Hcounts]. }
    destruct (ch =? c_backslash) eqn:Eb.
    { apply Hnext; [unfold quote_step; simpl; rewrite Eb; reflexivity
                   | not_counted Hcounts | no_close_here Hcounts]. }
    destruct (ch =? c_dquote) eqn:Eq.
    { destruct inString; simpl;
        (apply Hnext; [unfold quote_step; simpl; rewrite Eb, Eq; reflexivity
                      | not_counted Hcounts | no_close_here Hcounts]). }
    simpl.
    destruct inString.
    { apply Hnext; [unfold quote_step; simpl; rewrite Eb, Eq; reflexivity
                   | not_counted Hcounts | no_close_here Hcounts]. }
    assert (Hc1 : counts done ch = true) by (rewrite Hcounts; reflexivity).
    assert (Hstep : quote_step (false, false) ch = (false, false))
      by (unfold quote_step; simpl; rewrite Eb, Eq; reflexivity).
    destruct (ch =? open) eqn:Eo.
    { apply Hnext; [exact Hstep | rewrite Hc1; unfold delta; rewrite Eo; reflexivity |].
      intros (-> & Hne & _). apply N.eqb_eq in Eo. congruence. }
    destruct (ch =? close) eqn:Ec.
    { apply N.eqb_eq in Ec. subst ch.
      destruct ((d - 1 =? 0)%Z) eqn:Ez.
      - apply Z.eqb_eq in Ez. exists (length done).
        split; [lia|]. split; [|split; [intros j Hj; lia | reflexivity]].
        apply closes_here. split; [reflexivity|].
        split; [apply N.eqb_neq; exact Eo|]. split; [exact Hc1|].
        rewrite Hd; exact Ez.
      - apply Hnext; [exact Hstep
                     | rewrite Hc1; unfold delta; rewrite Eo, N.eqb_refl; lia |].
        intros (_ & _ & _ & Hz). apply Z.eqb_neq in Ez. rewrite Hd in Hz. contradiction. }
    apply Hnext; [exact Hstep | rewrite Hc1; unfold delta; rewrite Eo, Ec; lia |].
    intros (-> & _). rewrite N.eqb_refl in Ec. discriminate.
Qed.
End Loop.

Lemma closesAt_closes (text : str) (start : nat) (open close : char) (n : nat) :
  closesAt text start open close (start + n)
  <-> closes open close (skipn start text) n.
Proof.
  unfold closesAt, closes, slice.
  rewrite nth_error_skipn.
  replace (start + n - start)%nat with n by lia.
  replace (S (start + n) - start)%nat with (S n) by lia.
  split; [intros (_ & H); exact H | intros H; split; [lia | exact H]].
Qed.

Lemma closesAt_from_start (text : str) (start : nat) (open close : char) (i : nat) :
  closesAt text start open close i -> exists n, i = (start + n)%nat.
Proof. intros (H & _). exists (i - start)%nat. lia. Qed.

(** C6: the extractor returns the text from [start] through the first
    index where depth returns to zero, characters inside double-quoted
    runs or escaped by a backslash not being counted, and returns no
    block when depth never returns to zero; the braces inside the string
    of the example do not disturb it, alone or amid prose. *)
Theorem extractBalanced_first_return_to_zero
    (text : str) (start : nat) (open close : char) :
  match extractBalanced text start open close with
  | Some block =>
      exists i, closesAt text start open close i
        /\ (forall j, (j < i)%nat -> ~ closesAt text start open close j)
        /\ block = slice text start (S i)
  | None => forall i, ~ closesAt text start open close i
  end
  /\ (extractBalanced c6_text 0 c_lbrace c_rbrace = Some c6_text
      /\ parseJSON (Value (JString c6_text)) None = Ok c6_value
      /\ extractBalanced c6_prose 6 c_lbrace c_rbrace = Some c6_text
      /\ parseJSON (Value (JString c6_prose)) None = Ok c6_value).
Proof.
  split; [|repeat split; vm_compute; reflexivity].
  unfold extractBalanced.
  pose proof (extractBalanced_loop_spec text start open close
                (skipn start text) [] 0%Z false false eq_refl eq_refl) as H.
  simpl in H. rewrite Nat.add_0_r in H.
  destruct (extractBalanced_loop text start open close (skipn start text)
              start 0 false false) as [block|].
  - destruct H as (n & _ & Hc & Hmin & Hb).
    exists (start + n)%nat. split; [apply closesAt_closes; exact Hc|].
    split; [|exact Hb].
    intros j Hj Hcj. destruct (closesAt_from_start _ _ _ _ _ Hcj) as (m & ->).
    apply closesAt_closes in Hcj. apply (Hmin m); [lia | exact Hcj].
  - intros i Hci. destruct (closesAt_from_start _ _ _ _ _ Hci) as (m & ->).
    apply closesAt_closes in Hci. apply (H m); [lia | exact Hci].
Qed.

(** ** The scanning loop *)

Lemma surrogate_not_tested (c : char) :
  isHighSurrogate c = true \/ isLowSurrogate c = true ->
  (c =? c_squote) = false /\ (c =? c_dquote) = false /\ (c =? c_backslash) = false.
Proof.
  intros H. repeat split; apply N.eqb_neq; destruct H as [H | H]; char_lia.
Qed.

Lemma scanUnits_untested (m : scan_mode) (c : char) (rest : str) :
  (c =? c_squote) = false -> (c =? c_dquote) = false ->
  (c =? c_backslash) = false ->
  scanUnits m (c :: rest) = c :: scanUnits m rest.
Proof.
  intros H1 H2 H3. destruct m; simpl; rewrite ?H1, ?H2, ?H3; reflexivity.
Qed.

Lemma Array_from_cons (c : char) (rest : str) :
  Array_from (c :: rest) = [c] :: Array_from rest
  \/ exists d rest', rest = d :: rest'
       /\ isHighSurrogate c = true /\ isLowSurrogate d = true
       /\ Array_from (c :: rest) = [c; d] :: Array_from rest'.
Proof.
  destruct rest as [|d rest']; [left; reflexivity|].
  simpl. destruct (isHighSurrogate c && isLowSurrogate d) eqn:E.
  - right. apply andb_true_iff in E. destruct E. eauto 6.
  - left. reflexivity.
Qed.

Lemma scan_pair (m : scan_mode) (c d : char) (rest : list str) :
  scan m ([c; d] :: rest) = c :: d :: scan m rest.
Proof. destruct m; reflexivity. Qed.

(** The loop over the code points of a text appends what the loop over
    its code units appends. *)
Lemma scan_Array_from_bounded (n : nat) :
  forall (s : str) (m : scan_mode),
    (length s <= n)%nat -> scan m (Array_from s) = scanUnits m s.
Proof.
  induction n as [|n IH]; intros s m Hlen.
  - destruct s; [reflexivity | simpl in Hlen; lia].
  - destruct s as [|c rest]; [reflexivity|]. simpl in Hlen.
    destruct (Array_from_cons c rest)
      as [E | (d & rest' & -> & Hc & Hd & E)]; rewrite E.
    + (* the element is the single unit [c] *)
      assert (Hrest : forall m', scan m' (Array_from rest) = scanUnits m' rest)
        by (intros; apply IH; lia).
      destruct m.
      * simpl. rewrite !Hrest. reflexivity.
      * simpl scan. simpl scanUnits. rewrite !Hrest.
        destruct (c =? c_backslash); [|reflexivity].
        destruct rest as [|x rest1]; [reflexivity|].
        destruct (Array_from_cons x rest1)
          as [E1 | (y & rest2 & -> & Hx & Hy & E1)]; rewrite E1.
        -- simpl is_char. rewrite (IH rest1 InSingle) by (simpl in Hlen; lia).
           reflexivity.
        -- destruct (surrogate_not_tested x (or_introl Hx)) as (X1 & X2 & X3).
           destruct (surrogate_not_tested y (or_intror Hy)) as (Y1 & Y2 & Y3).
           simpl is_char. cbv iota. rewrite X1, X2.
           rewrite (scanUnits_untested InSingle y rest2 Y1 Y2 Y3).
           rewrite (IH rest2 InSingle) by (simpl in Hlen; lia). reflexivity.
      * simpl scan. simpl scanUnits. rewrite !Hrest.
        destruct (c =? c_backslash); [|reflexivity].
        destruct rest as [|x rest1]; [reflexivity|].
        destruct (Array_from_cons x rest1)
          as [E1 | (y & rest2 & -> & Hx & Hy & E1)]; rewrite E1.
        -- rewrite (IH rest1 InDouble) by (simpl in Hlen; lia). reflexivity.
        -- destruct (surrogate_not_tested y (or_intror Hy)) as (Y1 & Y2 & Y3).
           rewrite (scanUnits_untested InDouble y rest2 Y1 Y2 Y3).
           rewrite (IH rest2 InDouble) by (simpl in Hlen; lia). reflexivity.
    + (* the element is the surrogate pair [c; d] *)
      destruct (surrogate_not_tested c (or_introl Hc)) as (C1 & C2 & C3).
      destruct (surrogate_not_tested d (or_intror Hd)) as (D1 & D2 & D3).
      rewrite scan_pair, (scanUnits_untested m c _ C1 C2 C3),
        (scanUnits_untested m d _ D1 D2 D3).
      rewrite (IH rest' m) by (simpl in Hlen; lia). reflexivity.
Qed.

Lemma scan_Array_from (m : scan_mode) (s : str) :
  scan m (Array_from s) = scanUnits m s.
Proof. apply (scan_Array_from_bounded (length s)). lia. Qed.

Lemma normalizeToJSON_units (raw : str) :
  normalizeToJSON raw
  = replaceAll match_trailing_comma 0 (replaceAll match_key 0 (scanUnits Normal raw)).
Proof. unfold normalizeToJSON. rewrite scan_Array_from. reflexivity. Qed.

(** ** The two rewrites *)

Lemma replaceAll_no_occurrence (m : str -> option (str * nat)) (s : str) :
  patternOccurs m s = false -> replaceAll m 0 s = s.
Proof.
  induction s as [|c s IH]; [reflexivity|].
  simpl. destruct (m (c :: s)) as [[repl len]|]; [discriminate|].
  intros H. rewrite (IH H). reflexivity.
Qed.

Lemma replaceAll_here (m : str -> option (str * nat)) (c : char) (rest : str) :
  replaceAll m 0 (c :: rest)
  = match m (c :: rest) with
    | Some (repl, len) => repl ++ replaceAll m (len - 1) rest
    | None => c :: replaceAll m 0 rest
    end.
Proof. reflexivity. Qed.

Lemma replaceAll_skip (m : str -> option (str * nat)) (X rest : str) :
  replaceAll m (length X) (X ++ rest) = replaceAll m 0 rest.
Proof. induction X as [|x X IH]; [reflexivity | exact IH]. Qed.

Lemma replaceAll_app_skip (m : str -> option (str * nat)) (A B : str) :
  matchesLocal m A B ->
  forall skip, (skip <= length A)%nat ->
    replaceAll m skip (A ++ B) = replaceAll m skip A ++ replaceAll m 0 B.
Proof.
  induction A as [|a A IH]; intros Hloc skip Hskip.
  - simpl in Hskip. replace skip with O by lia. reflexivity.
  - destruct Hloc as (Hsame & Hlen & Hloc').
    change ((a :: A) ++ B) with (a :: A ++ B).
    destruct skip as [|k].
    + simpl replaceAll. change (a :: A ++ B) with ((a :: A) ++ B).
      rewrite Hsame. destruct (m (a :: A)) as [[repl len]|] eqn:E.
      * specialize (Hlen repl len eq_refl). simpl in Hlen.
        rewrite (IH Hloc' (len - 1)%nat) by lia.
        rewrite app_assoc. reflexivity.
      * rewrite (IH Hloc' O) by lia. reflexivity.
    + simpl replaceAll. simpl in Hskip. apply (IH Hloc' k). lia.
Qed.

Lemma replaceAll_app (m : str -> option (str * nat)) (A B : str) :
  matchesLocal m A B ->
  replaceAll m 0 (A ++ B) = replaceAll m 0 A ++ replaceAll m 0 B.
Proof. intros H. apply (replaceAll_app_skip m A B H O). lia. Qed.

(** *** Spans *)

Lemma span_stop (p : char -> bool) (A Y : str) (x : char) :
  p x = false ->
  takeWhile p (A ++ x :: Y) = takeWhile p A
  /\ dropWhile p (A ++ x :: Y) = dropWhile p A ++ x :: Y.
Proof.
  intros Hx. induction A as [|a A [IH1 IH2]]; simpl.
  - rewrite Hx. split; reflexivity.
  - destruct (p a); [rewrite IH1, IH2; split; reflexivity | split; reflexivity].
Qed.

Lemma span_all (p : char -> bool) (A Y : str) (x : char) :
  forallb p A = true -> p x = false ->
  takeWhile p (A ++ x :: Y) = A /\ dropWhile p (A ++ x :: Y) = x :: Y.
Proof.
  intros HA Hx. induction A as [|a A IH]; simpl.
  - rewrite Hx. split; reflexivity.
  - simpl in HA. apply andb_true_iff in HA. destruct HA as [Ha HA].
    rewrite Ha. destruct (IH HA) as [-> ->]. split; reflexivity.
Qed.

Lemma span_length (p : char -> bool) (s : str) :
  (length (takeWhile p s) + length (dropWhile p s) = length s)%nat.
Proof.
  induction s as [|c s IH]; [reflexivity|].
  simpl. destruct (p c); simpl; lia.
Qed.

(** *** The key pattern *)

Lemma match_key_length (s repl : str) (len : nat) :
  match_key s = Some (repl, len) -> (1 <= len <= length s)%nat.
Proof.
  destruct s as [|d r]; [discriminate|]. unfold match_key.
  destruct ((d =? c_lbrace) || (d =? c_comma)); [|discriminate].
  pose proof (span_length isWhiteSpace r) as L1.
  destruct (dropWhile isWhiteSpace r) as [|i0 r1]; [discriminate|].
  destruct (isIdentStart i0); [|discriminate].
  pose proof (span_length isIdentPart r1) as L2.
  pose proof (span_length isWhiteSpace (dropWhile isIdentPart r1)) as L3.
  destruct (dropWhile isWhiteSpace (dropWhile isIdentPart r1)) as [|k r3];
    [discriminate|].
  destruct (k =? c_colon); [|discriminate].
  intros H; inversion H; subst. simpl in *. lia.
Qed.

(** A character that is neither whitespace, nor part of an identifier,
    nor a colon ends every attempt to match the key pattern before it. *)
Lemma match_key_stop (A Y : str) (x : char) :
  A <> [] ->
  isWhiteSpace x = false -> isIdentPart x = false -> (x =? c_colon) = false ->
  match_key (A ++ x :: Y) = match_key A.
Proof.
  intros HA Hws Hid Hcolon. destruct A as [|d r]; [contradiction|].
  assert (Hstart : isIdentStart x = false).
  { unfold isIdentPart in Hid. apply orb_false_iff in Hid. tauto. }
  change ((d :: r) ++ x :: Y) with (d :: r ++ x :: Y). unfold match_key.
  cbv zeta.
  destruct ((d =? c_lbrace) || (d =? c_comma)); [|reflexivity].
  destruct (span_stop isWhiteSpace r Y x Hws) as [-> ->].
  destruct (dropWhile isWhiteSpace r) as [|i0 r1].
  - simpl. rewrite Hstart. reflexivity.
  - change ((i0 :: r1) ++ x :: Y) with (i0 :: r1 ++ x :: Y). cbv beta iota.
    destruct (isIdentStart i0); [|reflexivity].
    destruct (span_stop isIdentPart r1 Y x Hid) as [-> ->].
    destruct (span_stop isWhiteSpace (dropWhile isIdentPart r1) Y x Hws) as [-> ->].
    destruct (dropWhile isWhiteSpace (dropWhile isIdentPart r1)) as [|k r3].
    + simpl. rewrite Hcolon. reflexivity.
    + reflexivity.
Qed.

Lemma match_key_local (A Y : str) (x : char) :
  isWhiteSpace x = false -> isIdentPart x = false -> (x =? c_colon) = false ->
  matchesLocal match_key A (x :: Y).
Proof.
  intros Hws Hid Hcolon. induction A as [|a A IH]; [exact I|].
  split; [|split; [|exact IH]].
  - apply (match_key_stop (a :: A) Y x); auto. discriminate.
  - intros repl len H. apply (match_key_length _ _ _ H).
Qed.

(** An identifier between one of the characters { and , and a colon,
    whitespace allowed on both sides of it: it is matched whole. *)
Lemma identStart_not_whitespace (c : char) :
  isIdentStart c = true -> isWhiteSpace c = false.
Proof.
  intros H. destruct (isWhiteSpace c) eqn:E; [|reflexivity]. exfalso. char_lia.
Qed.

Lemma whitespace_not_identPart (c : char) :
  isWhiteSpace c = true -> isIdentPart c = false.
Proof.
  intros H. destruct (isIdentPart c) eqn:E; [|reflexivity]. exfalso.
  unfold isIdentPart in E. apply orb_true_iff in E. destruct E; char_lia.
Qed.

Lemma match_key_occurrence (d i0 : char) (ws1 idr ws2 post : str) :
  (d =? c_lbrace) || (d =? c_comma) = true ->
  forallb isWhiteSpace ws1 = true ->
  isIdentStart i0 = true -> forallb isIdentPart idr = true ->
  forallb isWhiteSpace ws2 = true ->
  match_key (d :: ws1 ++ (i0 :: idr) ++ ws2 ++ c_colon :: post)
  = Some (d :: ws1 ++ c_dquote :: (i0 :: idr) ++ c_dquote :: ws2 ++ [c_colon],
          length (d :: ws1 ++ (i0 :: idr) ++ ws2 ++ [c_colon])).
Proof.
  intros Hd H1 Hi0 Hid H2. unfold match_key. cbv zeta. rewrite Hd.
  assert (Hi0ws : isWhiteSpace i0 = false)
    by (apply identStart_not_whitespace; exact Hi0).
  change ((i0 :: idr) ++ ws2 ++ c_colon :: post)
    with (i0 :: idr ++ ws2 ++ c_colon :: post).
  destruct (span_all isWhiteSpace ws1 (idr ++ ws2 ++ c_colon :: post) i0 H1 Hi0ws)
    as [-> ->].
  rewrite Hi0.
  assert (Hcolon_ws : isWhiteSpace c_colon = false) by reflexivity.
  assert (Hcolon_id : isIdentPart c_colon = false) by reflexivity.
  assert (Hstop : exists x Y, ws2 ++ c_colon :: post = x :: Y /\ isIdentPart x = false).
  { destruct ws2 as [|w ws2']; simpl; [eauto|].
    exists w, (ws2' ++ c_colon :: post). split; [reflexivity|].
    simpl in H2. apply andb_true_iff in H2. destruct H2 as [Hw _].
    apply whitespace_not_identPart. exact Hw. }
  destruct Hstop as (x & Y & HxY & Hx). rewrite HxY.
  destruct (span_all isIdentPart idr Y x Hid Hx) as [-> ->]. rewrite <- HxY.
  destruct (span_all isWhiteSpace ws2 post c_colon H2 Hcolon_ws) as [-> ->].
  rewrite N.eqb_refl. f_equal. f_equal.
  simpl. rewrite !length_app. simpl. rewrite !length_app. simpl. lia.
Qed.

(** The key rewrite quotes the identifier of an occurrence, wherever it
    stands in the text. *)
Lemma quote_key_occurrence (A post : str) (d i0 : char) (ws1 idr ws2 : str) :
  (d =? c_lbrace) || (d =? c_comma) = true ->
  forallb isWhiteSpace ws1 = true ->
  isIdentStart i0 = true -> forallb isIdentPart idr = true ->
  forallb isWhiteSpace ws2 = true ->
  replaceAll match_key 0 (A ++ d :: ws1 ++ (i0 :: idr) ++ ws2 ++ c_colon :: post)
  = replaceAll match_key 0 A
    ++ (d :: ws1 ++ c_dquote :: (i0 :: idr) ++ c_dquote :: ws2 ++ [c_colon])
    ++ replaceAll match_key 0 post.
Proof.
  intros Hd H1 Hi0 Hid H2.
  assert (Hdx : isWhiteSpace d = false /\ isIdentPart d = false
                /\ (d =? c_colon) = false).
  { apply orb_true_iff in Hd. destruct Hd as [E | E]; apply N.eqb_eq in E;
      subst d; repeat split; reflexivity. }
  destruct Hdx as (Hdws & Hdid & Hdcolon).
  rewrite (replaceAll_app match_key A _
             (match_key_local A _ d Hdws Hdid Hdcolon)).
  f_equal.
  remember (ws1 ++ (i0 :: idr) ++ ws2 ++ c_colon :: post) as tail eqn:Etail.
  rewrite replaceAll_here, Etail.
  rewrite (match_key_occurrence d i0 ws1 idr ws2 post Hd H1 Hi0 Hid H2).
  f_equal.
  replace (ws1 ++ (i0 :: idr) ++ ws2 ++ c_colon :: post)
    with ((ws1 ++ (i0 :: idr) ++ ws2 ++ [c_colon]) ++ post)
    by (rewrite <- ?app_assoc; simpl; rewrite <- ?app_assoc; reflexivity).
  replace (length (d :: ws1 ++ (i0 :: idr) ++ ws2 ++ [c_colon]) - 1)%nat
    with (length (ws1 ++ (i0 :: idr) ++ ws2 ++ [c_colon]))
    by (simpl length; lia).
  apply replaceAll_skip.
Qed.

(** *** The trailing-comma pattern *)

Lemma match_trailing_comma_length (s repl : str) (len : nat) :
  match_trailing_comma s = Some (repl, len) -> (1 <= len <= length s)%nat.
Proof.
  destruct s as [|d r]; [discriminate|]. unfold match_trailing_comma. cbv zeta.
  destruct (d =? c_comma); [|discriminate].
  pose proof (span_length isWhiteSpace r) as L1.
  destruct (dropWhile isWhiteSpace r) as [|b r1]; [discriminate|].
  destruct ((b =? c_rbrace) || (b =? c_rbracket)); [|discriminate].
  intros H; inversion H; subst. simpl in *. lia.
Qed.

Lemma match_trailing_comma_stop (A Y : str) (x : char) :
  A <> [] ->
  isWhiteSpace x = false -> (x =? c_rbrace) || (x =? c_rbracket) = false ->
  match_trailing_comma (A ++ x :: Y) = match_trailing_comma A.
Proof.
  intros HA Hws Hx. destruct A as [|d r]; [contradiction|].
  change ((d :: r) ++ x :: Y) with (d :: r ++ x :: Y).
  unfold match_trailing_comma. cbv zeta.
  destruct (d =? c_comma); [|reflexivity].
  destruct (span_stop isWhiteSpace r Y x Hws) as [-> ->].
  destruct (dropWhile isWhiteSpace r) as [|b r1].
  - simpl. rewrite Hx. reflexivity.
  - reflexivity.
Qed.

Lemma match_trailing_comma_local (A Y : str) (x : char) :
  isWhiteSpace x = false -> (x =? c_rbrace) || (x =? c_rbracket) = false ->
  matchesLocal match_trailing_comma A (x :: Y).
Proof.
  intros Hws Hx. induction A as [|a A IH]; [exact I|].
  split; [|split; [|exact IH]].
  - apply (match_trailing_comma_stop (a :: A) Y x); auto. discriminate.
  - intros repl len H. apply (match_trailing_comma_length _ _ _ H).
Qed.

Lemma replaceAll_comma_free (X Z : str) :
  forallb (fun c => negb (c =? c_comma)) X = true ->
  replaceAll match_trailing_comma 0 (X ++ Z)
  = X ++ replaceAll match_trailing_comma 0 Z.
Proof.
  induction X as [|x X IH]; intros H; [reflexivity|].
  simpl in H. apply andb_true_iff in H. destruct H as [Hx HX].
  change ((x :: X) ++ Z) with (x :: X ++ Z). rewrite replaceAll_here.
  unfold match_trailing_comma at 1. apply negb_true_iff in Hx. rewrite Hx.
  rewrite (IH HX). reflexivity.
Qed.

Lemma forallb_weaken (p q : char -> bool) (X : str) :
  (forall c, p c = true -> q c = true) ->
  forallb p X = true -> forallb q X = true.
Proof.
  intros Hpq. induction X as [|x X IH]; simpl; [reflexivity|].
  intros H. apply andb_true_iff in H. destruct H as [Hx HX].
  rewrite (Hpq x Hx), (IH HX). reflexivity.
Qed.

Lemma forallb_app_true (p : char -> bool) (A B : str) :
  forallb p A = true -> forallb p B = true -> forallb p (A ++ B) = true.
Proof. intros HA HB. rewrite forallb_app, HA, HB. reflexivity. Qed.

Lemma forallb_cons_true (p : char -> bool) (a : char) (B : str) :
  p a = true -> forallb p B = true -> forallb p (a :: B) = true.
Proof. intros Ha HB. simpl. rewrite Ha, HB. reflexivity. Qed.

Lemma whitespace_not_comma (c : char) :
  isWhiteSpace c = true -> negb (c =? c_comma) = true.
Proof.
  intros H. apply negb_true_iff. apply N.eqb_neq. intros ->. discriminate.
Qed.

Lemma identPart_not_comma (c : char) :
  isIdentPart c = true -> negb (c =? c_comma) = true.
Proof.
  intros H. apply negb_true_iff. apply N.eqb_neq. intros ->. discriminate.
Qed.

Lemma identStart_part (c : char) : isIdentStart c = true -> isIdentPart c = true.
Proof. intros H. unfold isIdentPart. rewrite H. reflexivity. Qed.

(** The trailing-comma rewrite leaves a quoted key as it is. *)
Lemma keep_quoted_key (d i0 : char) (ws1 idr ws2 Z : str) :
  (d =? c_lbrace) || (d =? c_comma) = true ->
  forallb isWhiteSpace ws1 = true ->
  isIdentStart i0 = true -> forallb isIdentPart idr = true ->
  forallb isWhiteSpace ws2 = true ->
  replaceAll match_trailing_comma 0
    ((d :: ws1 ++ c_dquote :: (i0 :: idr) ++ c_dquote :: ws2 ++ [c_colon]) ++ Z)
  = (d :: ws1 ++ c_dquote :: (i0 :: idr) ++ c_dquote :: ws2 ++ [c_colon])
    ++ replaceAll match_trailing_comma 0 Z.
Proof.
  intros Hd H1 Hi0 Hid H2.
  set (body := ws1 ++ c_dquote :: (i0 :: idr) ++ c_dquote :: ws2 ++ [c_colon]).
  change ((d :: body) ++ Z) with (d :: body ++ Z). rewrite replaceAll_here.
  assert (Hnone : match_trailing_comma (d :: body ++ Z) = None).
  { unfold match_trailing_comma. cbv zeta.
    destruct (d =? c_comma); [|reflexivity].
    unfold body. rewrite <- app_assoc.
    change ((c_dquote :: (i0 :: idr) ++ c_dquote :: ws2 ++ [c_colon]) ++ Z)
      with (c_dquote :: ((i0 :: idr) ++ c_dquote :: ws2 ++ [c_colon]) ++ Z).
    destruct (span_all isWhiteSpace ws1
                (((i0 :: idr) ++ c_dquote :: ws2 ++ [c_colon]) ++ Z)
                c_dquote H1 eq_refl) as [_ ->].
    reflexivity. }
  rewrite Hnone. change ((d :: body) ++ replaceAll match_trailing_comma 0 Z)
    with (d :: body ++ replaceAll match_trailing_comma 0 Z).
  f_equal. apply replaceAll_comma_free.
  unfold body.
  apply forallb_app_true;
    [exact (forallb_weaken _ _ ws1 whitespace_not_comma H1)|].
  apply forallb_cons_true; [reflexivity|].
  change ((i0 :: idr) ++ c_dquote :: ws2 ++ [c_colon])
    with (i0 :: idr ++ c_dquote :: ws2 ++ [c_colon]).
  apply forallb_cons_true;
    [exact (identPart_not_comma i0 (identStart_part i0 Hi0))|].
  apply forallb_app_true;
    [exact (forallb_weaken _ _ idr identPart_not_comma Hid)|].
  apply forallb_cons_true; [reflexivity|].
  apply forallb_app_true;
    [exact (forallb_weaken _ _ ws2 whitespace_not_comma H2) | reflexivity].
Qed.

(** *** The scanning loop around an occurrence *)

Lemma untested_tests (c : char) :
  untested c = true ->
  (c =? c_squote) = false /\ (c =? c_dquote) = false /\ (c =? c_backslash) = false.
Proof.
  unfold untested. intros H.
  apply andb_true_iff in H. destruct H as [H H3].
  apply andb_true_iff in H. destruct H as [H1 H2].
  apply negb_true_iff in H1, H2, H3. auto.
Qed.

Lemma scanUnits_untested_run (m : scan_mode) (X Y : str) :
  forallb untested X = true -> scanUnits m (X ++ Y) = X ++ scanUnits m Y.
Proof.
  induction X as [|x X IH]; intros H; [reflexivity|].
  simpl in H. apply andb_true_iff in H. destruct H as [Hx HX].
  destruct (untested_tests x Hx) as (H1 & H2 & H3).
  change ((x :: X) ++ Y) with (x :: X ++ Y).
  rewrite (scanUnits_untested m x _ H1 H2 H3), (IH HX). reflexivity.
Qed.

(** What the loop appends for a prefix does not depend on what follows
    it, when what follows begins with a character the loop does not test. *)
Lemma scanUnits_prefix_bounded (n : nat) (x : char) :
  untested x = true ->
  forall (pre : str) (m : scan_mode),
    (length pre <= n)%nat ->
    exists m', forall Y,
      scanUnits m (pre ++ x :: Y) = scanUnits m pre ++ x :: scanUnits m' Y.
Proof.
  intros Hx. destruct (untested_tests x Hx) as (X1 & X2 & X3).
  induction n as [|n IH]; intros pre m Hlen.
  - destruct pre; [|simpl in Hlen; lia].
    exists m. intros Y. apply (scanUnits_untested m x Y X1 X2 X3).
  - destruct pre as [|c pre].
    { exists m. intros Y. apply (scanUnits_untested m x Y X1 X2 X3). }
    simpl in Hlen.
    assert (Hone : forall m1, exists m', forall Y,
               scanUnits m1 (pre ++ x :: Y)
               = scanUnits m1 pre ++ x :: scanUnits m' Y)
      by (intros m1; apply IH; lia).
    assert (Htwo : forall m1 c2 pre2, pre = c2 :: pre2 -> exists m', forall Y,
               scanUnits m1 (pre2 ++ x :: Y)
               = scanUnits m1 pre2 ++ x :: scanUnits m' Y)
      by (intros m1 c2 pre2 ->; apply IH; simpl in Hlen; lia).
    change ((c :: pre) ++ x :: ?Y) with (c :: pre ++ x :: Y).
    destruct m.
    + simpl scanUnits.
      destruct (c =? c_squote);
        [destruct (Hone InSingle) as (m' & H)
        |destruct (c =? c_dquote);
           [destruct (Hone InDouble) as (m' & H)
           |destruct (Hone Normal) as (m' & H)]];
        exists m'; intros Y; simpl; rewrite (H Y); reflexivity.
    + simpl scanUnits. destruct (c =? c_backslash).
      * destruct pre as [|c2 pre2].
        -- exists InSingle. intros Y. simpl. rewrite X1, X2. reflexivity.
        -- destruct (Htwo InSingle c2 pre2 eq_refl) as (m' & H).
           exists m'. intros Y. simpl.
           destruct (c2 =? c_squote); [rewrite (H Y); reflexivity|].
           destruct (c2 =? c_dquote); rewrite (H Y); reflexivity.
      * destruct (c =? c_dquote);
          [destruct (Hone InSingle) as (m' & H)
          |destruct (c =? c_squote);
             [destruct (Hone Normal) as (m' & H)
             |destruct (Hone InSingle) as (m' & H)]];
          exists m'; intros Y; simpl; rewrite (H Y); reflexivity.
    + simpl scanUnits. destruct (c =? c_backslash).
      * destruct pre as [|c2 pre2].
        -- exists InDouble. intros Y. reflexivity.
        -- destruct (Htwo InDouble c2 pre2 eq_refl) as (m' & H).
           exists m'. intros Y. simpl. rewrite (H Y). reflexivity.
      * destruct (c =? c_dquote);
          [destruct (Hone Normal) as (m' & H)
          |destruct (Hone InDouble) as (m' & H)];
          exists m'; intros Y; simpl; rewrite (H Y); reflexivity.
Qed.

Lemma scanUnits_prefix (m : scan_mode) (pre : str) (x : char) :
  untested x = true ->
  exists m', forall Y,
    scanUnits m (pre ++ x :: Y) = scanUnits m pre ++ x :: scanUnits m' Y.
Proof. intros Hx. apply (scanUnits_prefix_bounded (length pre) x Hx). lia. Qed.

Lemma whitespace_untested (c : char) : isWhiteSpace c = true -> untested c = true.
Proof.
  intros H. unfold untested.
  destruct (c =? c_squote) eqn:E1; [exfalso; char_lia|].
  destruct (c =? c_dquote) eqn:E2; [exfalso; char_lia|].
  destruct (c =? c_backslash) eqn:E3; [exfalso; char_lia|].
  reflexivity.
Qed.

Lemma identPart_untested (c : char) : isIdentPart c = true -> untested c = true.
Proof.
  intros H. unfold untested.
  unfold isIdentPart in H. apply orb_true_iff in H.
  destruct (c =? c_squote) eqn:E1; [exfalso; destruct H; char_lia|].
  destruct (c =? c_dquote) eqn:E2; [exfalso; destruct H; char_lia|].
  destruct (c =? c_backslash) eqn:E3; [exfalso; destruct H; char_lia|].
  reflexivity.
Qed.

(** C8: wherever an identifier follows an opening brace or a comma and
    precedes a colon, whitespace allowed on both sides of it, the
    Normalizer's output has it between double quotes, after the
    normalized text before the occurrence; so the example decodes to a
    mapping with the keys [a] and [b]. *)
Theorem normalizeToJSON_quotes_keys
    (pre post : str) (d i0 : char) (ws1 idr ws2 : str) :
  (d =? c_lbrace) || (d =? c_comma) = true ->
  forallb isWhiteSpace ws1 = true ->
  isIdentStart i0 = true -> forallb isIdentPart idr = true ->
  forallb isWhiteSpace ws2 = true ->
  (exists m',
     normalizeToJSON (pre ++ d :: ws1 ++ (i0 :: idr) ++ ws2 ++ c_colon :: post)
     = normalizeToJSON pre
       ++ (d :: ws1 ++ c_dquote :: (i0 :: idr) ++ c_dquote :: ws2 ++ [c_colon])
       ++ normalizeFrom m' post)
  /\ parseJSON (Value (JString c8_text)) None = Ok c8_value.
Proof.
  intros Hd H1 Hi0 Hid H2. split; [|vm_compute; reflexivity].
  assert (Hdx : untested d = true /\ isWhiteSpace d = false
                /\ (d =? c_rbrace) || (d =? c_rbracket) = false).
  { apply orb_true_iff in Hd. destruct Hd as [E | E]; apply N.eqb_eq in E;
      subst d; repeat split; reflexivity. }
  destruct Hdx as (Hdu & Hdws & Hdclose).
  destruct (scanUnits_prefix Normal pre d Hdu) as (m' & Hscan).
  exists m'. rewrite !normalizeToJSON_units, Hscan. unfold normalizeFrom.
  replace (ws1 ++ (i0 :: idr) ++ ws2 ++ c_colon :: post)
    with ((ws1 ++ (i0 :: idr) ++ ws2 ++ [c_colon]) ++ post)
    by (rewrite <- ?app_assoc; simpl; rewrite <- ?app_assoc; reflexivity).
  rewrite scanUnits_untested_run.
  2:{ apply forallb_app_true;
        [exact (forallb_weaken _ _ ws1 whitespace_untested H1)|].
      change ((i0 :: idr) ++ ws2 ++ [c_colon]) with (i0 :: idr ++ ws2 ++ [c_colon]).
      apply forallb_cons_true;
        [exact (identPart_untested i0 (identStart_part i0 Hi0))|].
      apply forallb_app_true;
        [exact (forallb_weaken _ _ idr identPart_untested Hid)|].
      apply forallb_app_true;
        [exact (forallb_weaken _ _ ws2 whitespace_untested H2) | reflexivity]. }
  replace ((ws1 ++ (i0 :: idr) ++ ws2 ++ [c_colon]) ++ scanUnits m' post)
    with (ws1 ++ (i0 :: idr) ++ ws2 ++ c_colon :: scanUnits m' post)
    by (rewrite <- ?app_assoc; simpl; rewrite <- ?app_assoc; reflexivity).
  rewrite (quote_key_occurrence _ _ d i0 ws1 idr ws2 Hd H1 Hi0 Hid H2).
  set (quoted := d :: ws1 ++ c_dquote :: (i0 :: idr) ++ c_dquote :: ws2 ++ [c_colon]).
  change (quoted ++ replaceAll match_key 0 (scanUnits m' post))
    with (d :: (ws1 ++ c_dquote :: (i0 :: idr) ++ c_dquote :: ws2 ++ [c_colon])
               ++ replaceAll match_key 0 (scanUnits m' post)).
  rewrite (replaceAll_app match_trailing_comma _ _
             (match_trailing_comma_local _ _ d Hdws Hdclose)).
  f_equal.
  exact (keep_quoted_key d i0 ws1 idr ws2 _ Hd H1 Hi0 Hid H2).
Qed.

Lemma normalizeToJSON_quotes_keys_witness :
  (exists m',
     normalizeToJSON (js "{ a : 1}")
     = normalizeToJSON [] ++ js "{ `a` :" ++ normalizeFrom m' (js " 1}"))
  /\ parseJSON (Value (JString c8_text)) None = Ok c8_value.
Proof.
  apply (normalizeToJSON_quotes_keys [] (js " 1}") c_lbrace 97 (js " ") [] (js " "));
    reflexivity.
Defined.

(** ** Single-quoted runs *)







(** ** The strict decoder on text the scanning loop reads *)

Lemma lex_start_cases (c : char) (st' : lex_state) (tk : list token) :
  lex_start c = Some (st', tk) ->
  lex_state_ok st'
  /\ ((c = c_dquote /\ st' = LString [] /\ tk = [])
      \/ (untested c = true /\ outsideString st' = true)).
Proof.
  unfold lex_start. intros H. split_ifs H; inversion H; subst; clear H;
    (split; [first [exact I | split; reflexivity]|]);
    try (left; char_facts; subst; repeat split; reflexivity);
    right; (split; [prove_untested | reflexivity]).
Qed.

Lemma num_step_untested (ph ph' : num_phase) (c : char) :
  num_step ph c = Some ph' -> untested c = true.
Proof.
  destruct ph; simpl; intros H; split_ifs H; try discriminate; prove_untested.
Qed.

Lemma lex_step_ok (st st' : lex_state) (c : char) (tk : list token) :
  lex_state_ok st -> lex_step st c = Some (st', tk) -> lex_state_ok st'.
Proof.
  intros Hok. destruct st as [|acc|acc|acc hex|ph lit|expect t]; simpl.
  - intros H. apply (lex_start_cases c st' tk H).
  - intros H. split_ifs H; inversion H; subst; exact I.
  - intros H. split_ifs H; [inversion H; subst; exact I|].
    destruct (escape_value c); inversion H; subst; exact I.
  - destruct (hex_value c); [|discriminate].
    destruct hex as [|d1 [|d2 [|d3 [|d4 hex]]]]; intros H; inversion H; subst; exact I.
  - destruct (num_step ph c); [intros H; inversion H; subst; exact I|].
    destruct (num_complete ph); [|discriminate].
    destruct (lex_start c) as [[st1 tk1]|] eqn:E; [|discriminate].
    intros H; inversion H; subst. apply (lex_start_cases c st' tk1 E).
  - destruct expect as [|e rest]; [discriminate|].
    destruct Hok as [Hw Hb].
    simpl in Hw. apply andb_true_iff in Hw. destruct Hw as [_ Hrest].
    destruct (c =? e); [|discriminate].
    destruct rest; intros H; inversion H; subst; [exact I | split; assumption].
Qed.

Lemma lex_go_cons (st : lex_state) (c : char) (rest : str) :
  lex_go st (c :: rest)
  = match lex_step st c with
    | Some (st', toks) =>
        match lex_go st' rest with
        | Some more => Some (toks ++ more)
        | None => None
        end
    | None => None
    end.
Proof. reflexivity. Qed.

Lemma lex_go_step (st : lex_state) (c : char) (rest : str) (toks : list token) :
  lex_go st (c :: rest) = Some toks ->
  exists st' tk more,
    lex_step st c = Some (st', tk) /\ lex_go st' rest = Some more
    /\ toks = tk ++ more.
Proof.
  rewrite lex_go_cons.
  destruct (lex_step st c) as [[st' tk]|]; [|discriminate].
  destruct (lex_go st' rest) as [more|] eqn:Hgo; [|discriminate].
  intros H; inversion H; subst. exists st', tk, more. auto.
Qed.

Lemma scanStable_outside (st : lex_state) (s : str) :
  outsideString st = true -> scanStable st s -> scanUnits Normal s = s.
Proof. destruct st; simpl; intros H; try discriminate; auto. Qed.

Lemma scanStable_start (c : char) (rest : str) (st' : lex_state) (tk : list token) :
  lex_start c = Some (st', tk) -> scanStable st' rest ->
  scanUnits Normal (c :: rest) = c :: rest.
Proof.
  intros H Hst. destruct (lex_start_cases c st' tk H)
    as (_ & [(-> & -> & _) | (Hu & Hout)]).
  - simpl in *. rewrite Hst. reflexivity.
  - destruct (untested_tests c Hu) as (H1 & H2 & H3).
    rewrite (scanUnits_untested Normal c rest H1 H2 H3).
    rewrite (scanStable_outside st' rest Hout Hst). reflexivity.
Qed.

Lemma hex_value_untested (c : char) (d : N) : hex_value c = Some d -> untested c = true.
Proof.
  unfold hex_value. intros H. split_ifs H; try discriminate; prove_untested.
Qed.

Lemma wordChar_untested (c : char) : wordChar c = true -> untested c = true.
Proof. unfold wordChar. intros H. prove_untested. Qed.

(** Text the lexer accepts has its single quotes inside strings only,
    and the loop copies strings: the loop leaves the text as it is. *)
Lemma lex_scanStable (s : str) :
  forall (st : lex_state) (toks : list token),
    lex_state_ok st -> lex_go st s = Some toks -> scanStable st s.
Proof.
  induction s as [|c rest IH]; intros st toks Hok Hlex.
  - destruct st; simpl in Hlex; try discriminate; reflexivity.
  - destruct (lex_go_step st c rest toks Hlex) as (st' & tk & more & Hstep & Hgo & _).
    pose proof (IH st' more (lex_step_ok st st' c tk Hok Hstep) Hgo) as Hrest.
    destruct st as [|acc|acc|acc hex|ph lit|expect t]; simpl in Hstep |- *.
    + apply (scanStable_start c rest st' tk Hstep Hrest).
    + destruct (c =? c_dquote) eqn:Eq.
      { inversion Hstep; subst. apply N.eqb_eq in Eq. subst c.
        simpl in Hrest |- *. rewrite Hrest. reflexivity. }
      destruct (c =? c_backslash) eqn:Eb.
      { inversion Hstep; subst. apply N.eqb_eq in Eb. subst c. exact Hrest. }
      destruct (c <? 32); [discriminate|].
      inversion Hstep; subst. simpl in Hrest. rewrite Hrest. reflexivity.
    + assert (Hin : scanUnits InDouble rest = rest).
      { destruct (c =? 117); [inversion Hstep; subst; exact Hrest|].
        destruct (escape_value c); inversion Hstep; subst; exact Hrest. }
      rewrite Hin. reflexivity.
    + destruct (hex_value c) as [d|] eqn:Eh; [|discriminate].
      destruct (untested_tests c (hex_value_untested c d Eh)) as (_ & H2 & H3).
      rewrite H3, H2.
      assert (Hin : scanUnits InDouble rest = rest).
      { destruct hex as [|d1 [|d2 [|d3 [|d4 hex]]]];
          inversion Hstep; subst; exact Hrest. }
      rewrite Hin. reflexivity.
    + destruct (num_step ph c) as [ph'|] eqn:En.
      * inversion Hstep; subst.
        destruct (untested_tests c (num_step_untested ph ph' c En)) as (H1 & H2 & H3).
        rewrite H1, H2. simpl in Hrest. rewrite Hrest. reflexivity.
      * destruct (num_complete ph); [|discriminate].
        destruct (lex_start c) as [[st1 tk1]|] eqn:E; [|discriminate].
        inversion Hstep; subst.
        apply (scanStable_start c rest st' tk1 E Hrest).
    + destruct expect as [|e erest]; [discriminate|].
      destruct Hok as [Hok _].
      simpl in Hok. apply andb_true_iff in Hok. destruct Hok as [He _].
      destruct (c =? e) eqn:Ece; [|discriminate].
      apply N.eqb_eq in Ece. subst e.
      destruct (untested_tests c (wordChar_untested c He)) as (H1 & H2 & H3).
      rewrite H1, H2.
      assert (Hin : scanUnits Normal rest = rest).
      { destruct erest; inversion Hstep; subst; exact Hrest. }
      rewrite Hin. reflexivity.
Qed.

(** *** Trimming text the decoder accepts *)

Lemma lex_start_whitespace (c : char) (st' : lex_state) (tk : list token) :
  isWhiteSpace c = true -> lex_start c = Some (st', tk) ->
  st' = LStart /\ tk = [] /\ isJSONWhiteSpace c = true.
Proof.
  unfold lex_start. intros Hws H.
  destruct (isJSONWhiteSpace c) eqn:Ej;
    [inversion H; subst; repeat split; reflexivity|].
  exfalso. split_ifs H; try discriminate; char_lia.
Qed.

Lemma num_step_whitespace (ph : num_phase) (c : char) :
  isWhiteSpace c = true -> num_step ph c = None.
Proof.
  intros Hws. destruct (num_step ph c) as [ph'|] eqn:E; [|reflexivity].
  exfalso. destruct ph; simpl in E; split_ifs E; try discriminate; char_lia.
Qed.

Lemma wordChar_not_whitespace (c : char) :
  wordChar c = true -> isWhiteSpace c = false.
Proof.
  unfold wordChar. intros H.
  destruct (isWhiteSpace c) eqn:E; [exfalso; char_lia | reflexivity].
Qed.

(** A whitespace character the lexer accepts as the last one could as
    well be absent. *)
Lemma lex_finish_before_whitespace
    (st st' : lex_state) (c : char) (tk more : list token) :
  lex_state_ok st -> isWhiteSpace c = true ->
  lex_step st c = Some (st', tk) -> lex_finish st' = Some more ->
  lex_finish st = Some (tk ++ more).
Proof.
  intros Hok Hws Hstep Hfin.
  destruct st as [|acc|acc|acc hex|ph lit|expect t]; simpl in Hstep.
  - destruct (lex_start_whitespace c st' tk Hws Hstep) as (-> & -> & _).
    exact Hfin.
  - split_ifs Hstep; try discriminate; inversion Hstep; subst;
      try discriminate.
    exfalso. char_lia.
  - split_ifs Hstep; [inversion Hstep; subst; discriminate|].
    destruct (escape_value c); inversion Hstep; subst; discriminate.
  - destruct (hex_value c); [|discriminate].
    destruct hex as [|d1 [|d2 [|d3 [|d4 hex]]]]; inversion Hstep; subst; discriminate.
  - rewrite (num_step_whitespace ph c Hws) in Hstep.
    destruct (num_complete ph) eqn:Ec; [|discriminate].
    destruct (lex_start c) as [[st1 tk1]|] eqn:E; [|discriminate].
    inversion Hstep; subst.
    destruct (lex_start_whitespace c st' tk1 Hws E) as (-> & -> & _).
    simpl in Hfin. inversion Hfin; subst. simpl. rewrite Ec. reflexivity.
  - destruct expect as [|e rest]; [discriminate|].
    destruct Hok as [Hok _].
    simpl in Hok. apply andb_true_iff in Hok. destruct Hok as [He _].
    destruct (c =? e) eqn:Ece; [|discriminate].
    apply N.eqb_eq in Ece. subst e.
    rewrite (wordChar_not_whitespace c He) in Hws. discriminate.
Qed.

Lemma lex_trimEnd (t : str) :
  forall (st : lex_state) (toks : list token),
    lex_state_ok st -> lex_go st t = Some toks ->
    lex_go st (trimEnd t) = Some toks.
Proof.
  induction t as [|c rest IH]; intros st toks Hok Hlex; [exact Hlex|].
  destruct (lex_go_step st c rest toks Hlex) as (st' & tk & more & Hstep & Hgo & ->).
  pose proof (IH st' more (lex_step_ok st st' c tk Hok Hstep) Hgo) as Hrest.
  simpl trimEnd. destruct (trimEnd rest) as [|k kept].
  - destruct (isWhiteSpace c) eqn:Ews.
    + simpl in Hrest |- *.
      apply (lex_finish_before_whitespace st st' c tk more Hok Ews Hstep Hrest).
    + rewrite lex_go_cons, Hstep, Hrest. reflexivity.
  - rewrite lex_go_cons, Hstep, Hrest. reflexivity.
Qed.

Lemma lex_trimStart (s : str) (toks : list token) :
  lex_go LStart s = Some toks -> lex_go LStart (trimStart s) = Some toks.
Proof.
  unfold trimStart. induction s as [|c rest IH]; intros Hlex; [exact Hlex|].
  simpl. destruct (isWhiteSpace c) eqn:Ews; [|exact Hlex].
  destruct (lex_go_step LStart c rest toks Hlex) as (st' & tk & more & Hstep & Hgo & ->).
  destruct (lex_start_whitespace c st' tk Ews Hstep) as (-> & -> & _).
  apply IH. exact Hgo.
Qed.

Lemma lex_trim (s : str) (toks : list token) :
  lex_go LStart s = Some toks -> lex_go LStart (trim s) = Some toks.
Proof.
  intros H. unfold trim. apply lex_trimEnd; [exact I|].
  apply lex_trimStart. exact H.
Qed.

Lemma JSON_parse_trim (s : str) (v : JSONValue) :
  JSON_parse s = Ok v -> JSON_parse (trim s) = Ok v.
Proof.
  unfold JSON_parse. destruct (lex_go LStart s) as [toks|] eqn:E; [|discriminate].
  rewrite (lex_trim s toks E). auto.
Qed.

(** *** The Classifier on text the decoder accepts *)

Lemma lex_word (t : token) (expect : str) :
  forall (r : str) (more : list token),
    lex_go (LWord expect t) r = Some more ->
    exists r' more',
      r = expect ++ r' /\ more = t :: more' /\ lex_go LStart r' = Some more'.
Proof.
  induction expect as [|e rest IH]; intros r more H.
  - destruct r; simpl in H; discriminate.
  - destruct r as [|c r1]; [simpl in H; discriminate|].
    destruct (lex_go_step _ c r1 more H) as (st' & tk & more1 & Hstep & Hgo & ->).
    simpl in Hstep. destruct (c =? e) eqn:Ece; [|discriminate].
    apply N.eqb_eq in Ece. subst e.
    destruct rest as [|e2 rest2].
    + inversion Hstep; subst. exists r1, more1. repeat split. exact Hgo.
    + inversion Hstep; subst.
      destruct (IH r1 more1 Hgo) as (r' & more' & -> & -> & Hgo').
      exists r', more'. repeat split. exact Hgo'.
Qed.

Lemma lex_emits (X : str) :
  forall (st : lex_state) (toks : list token),
    st <> LStart -> lex_go st X = Some toks -> toks <> [].
Proof.
  induction X as [|c rest IH]; intros st toks Hst Hlex.
  - destruct st; simpl in Hlex; try discriminate; [contradiction|].
    destruct (num_complete ph); inversion Hlex; discriminate.
  - destruct (lex_go_step st c rest toks Hlex) as (st' & tk & more & Hstep & Hgo & ->).
    destruct tk as [|t0 tk]; [|discriminate].
    simpl. apply (IH st' more); [|exact Hgo].
    destruct st as [|acc|acc|acc hex|ph lit|expect t]; simpl in Hstep;
      [contradiction| | | | |].
    + split_ifs Hstep; inversion Hstep; subst; discriminate.
    + split_ifs Hstep; [inversion Hstep; subst; discriminate|].
      destruct (escape_value c); inversion Hstep; subst; discriminate.
    + destruct (hex_value c); [|discriminate].
      destruct hex as [|d1 [|d2 [|d3 [|d4 hex]]]]; inversion Hstep; subst; discriminate.
    + destruct (num_step ph c); [inversion Hstep; subst; discriminate|].
      destruct (num_complete ph); [|discriminate].
      destruct (lex_start c) as [[st1 tk1]|]; inversion Hstep.
    + destruct expect as [|e erest]; [discriminate|].
      destruct (c =? e); [|discriminate].
      destruct erest; inversion Hstep; subst; discriminate.
Qed.

Lemma lex_start_silent (c : char) (st' : lex_state) :
  lex_start c = Some (st', []) -> st' = LStart -> isJSONWhiteSpace c = true.
Proof.
  unfold lex_start. intros H Hst.
  destruct (isJSONWhiteSpace c); [reflexivity|].
  split_ifs H; inversion H; subst; discriminate.
Qed.

Lemma lex_nothing (X : str) :
  lex_go LStart X = Some [] -> forallb isJSONWhiteSpace X = true.
Proof.
  induction X as [|c rest IH]; intros H; [reflexivity|].
  destruct (lex_go_step LStart c rest [] H) as (st' & tk & more & Hstep & Hgo & Heq).
  symmetry in Heq. apply app_eq_nil in Heq. destruct Heq as [-> ->].
  simpl in Hstep.
  assert (Hst : st' = LStart).
  { destruct st'; try reflexivity;
      exfalso; refine (lex_emits rest _ [] _ Hgo eq_refl); discriminate. }
  subst st'. simpl. rewrite (lex_start_silent c LStart Hstep eq_refl).
  apply IH. exact Hgo.
Qed.

Lemma trimEnd_last (u A : str) (w : char) :
  trimEnd u = A ++ [w] -> isWhiteSpace w = false.
Proof.
  revert A. induction u as [|c u IH]; intros A H.
  - destruct A; discriminate.
  - simpl in H. destruct (trimEnd u) as [|k kept] eqn:E.
    + destruct (isWhiteSpace c) eqn:Ews; [destruct A; discriminate|].
      destruct A as [|a A]; [inversion H; subst; exact Ews|].
      inversion H. destruct A; discriminate.
    + destruct A as [|a A]; [inversion H|].
      inversion H. apply (IH A). congruence.
Qed.

Lemma jsonWhiteSpace_whitespace (c : char) :
  isJSONWhiteSpace c = true -> isWhiteSpace c = true.
Proof.
  unfold isJSONWhiteSpace. intros H.
  repeat (apply orb_true_iff in H; destruct H as [H | H]);
    apply N.eqb_eq in H; subst; reflexivity.
Qed.

(** After a trimmed text's last token there is nothing. *)
Lemma trim_no_trailing (s A X : str) :
  trim s = A ++ X -> forallb isJSONWhiteSpace X = true -> X = [].
Proof.
  intros Ht HX. destruct X as [|x X0]; [reflexivity|]. exfalso.
  assert (Hne : x :: X0 <> []) by discriminate.
  destruct (exists_last Hne) as (X' & w & E). rewrite E in Ht, HX.
  rewrite app_assoc in Ht. unfold trim in Ht. apply trimEnd_last in Ht.
  rewrite forallb_app in HX. apply andb_true_iff in HX. destruct HX as [_ Hw].
  simpl in Hw. rewrite andb_true_r in Hw.
  rewrite (jsonWhiteSpace_whitespace w Hw) in Ht. discriminate.
Qed.

Lemma looksLikeJSON_intro (t : str) :
  trimStart t = t ->
  (exists c rest, t = c :: rest
     /\ (c = c_lbrace \/ c = c_lbracket \/ c = c_dquote))
  \/ t = js "true" \/ t = js "false" \/ t = js "null"
  \/ test_minus_digit t = true ->
  looksLikeJSON t = true.
Proof.
  intros Htrim H. unfold looksLikeJSON. rewrite Htrim.
  rewrite !orb_true_iff, !str_eqb_eq.
  change (js "{") with [c_lbrace]. change (js "[") with [c_lbracket].
  change (js "`") with [c_dquote]. rewrite !startsWith_char.
  destruct H as [(c & r & -> & [-> | [-> | ->]]) | [H | [H | [H | H]]]].
  - do 6 left. exists r. reflexivity.
  - do 5 left. right. exists r. reflexivity.
  - do 4 left. right. exists r. reflexivity.
  - do 3 left. right. exact H.
  - do 2 left. right. exact H.
  - left. right. exact H.
  - right. exact H.
Qed.

Lemma parse_go_done (v w : JSONValue) (ts : list token) :
  parse_go (PDone v) ts = Some w -> ts = [].
Proof. destruct ts; [reflexivity | discriminate]. Qed.

(** A trimmed text that lexes to a literal and nothing else is the
    literal. *)
Lemma trim_is_word (s : str) (c : char) (expect r : str) (t : token)
    (more : list token) (v w : JSONValue) :
  trim s = c :: r ->
  lex_go (LWord expect t) r = Some more ->
  (forall rest, parse_go (PValue []) (t :: rest) = parse_go (PDone v) rest) ->
  parse_go (PValue []) more = Some w ->
  trim s = c :: expect.
Proof.
  intros Ht Hlex Hdone Hparse.
  destruct (lex_word t expect r more Hlex) as (r' & more' & -> & -> & Hgo).
  rewrite Hdone in Hparse. apply parse_go_done in Hparse. subst more'.
  apply lex_nothing in Hgo.
  assert (E : r' = []).
  { apply (trim_no_trailing s (c :: expect) r'); [|exact Hgo].
    rewrite Ht. reflexivity. }
  subst r'. rewrite Ht, app_nil_r. reflexivity.
Qed.

(** The Classifier accepts every trimmed text the strict decoder accepts. *)
Lemma looksLikeJSON_valid (s : str) (v : JSONValue) :
  JSON_parse s = Ok v -> looksLikeJSON (trim s) = true.
Proof.
  intros Hs. apply JSON_parse_trim in Hs. unfold JSON_parse in Hs.
  destruct (lex_go LStart (trim s)) as [toks|] eqn:Hlex; [|discriminate].
  destruct (parse_go (PValue []) toks) as [w|] eqn:Hparse; [|discriminate].
  apply looksLikeJSON_intro; [apply trimStart_trim|].
  destruct (trim_head s) as [E | (c & r & E & Hc)].
  { rewrite E in Hlex. simpl in Hlex. inversion Hlex; subst. discriminate. }
  rewrite E in Hlex.
  destruct (lex_go_step LStart c r toks Hlex) as (st1 & tk1 & more & Hstep & Hgo & ->).
  simpl in Hstep. unfold lex_start in Hstep.
  destruct (isJSONWhiteSpace c) eqn:Ej.
  { rewrite (jsonWhiteSpace_whitespace c Ej) in Hc. discriminate. }
  split_ifs Hstep; inversion Hstep; subst; clear Hstep; simpl in Hparse;
    try discriminate.
  - left. exists c, r. split; [exact E|]. left. char_lia.
  - left. exists c, r. split; [exact E|]. right; left. char_lia.
  - left. exists c, r. split; [exact E|]. right; right. char_lia.
  - (* a minus: a digit follows *)
    right; right; right; right. rewrite E.
    assert (c = c_minus) by char_lia. subst c.
    destruct r as [|d r']; [simpl in Hgo; discriminate|].
    destruct (lex_go_step _ d r' more Hgo) as (st2 & tk2 & more2 & Hstep2 & _).
    simpl in Hstep2. simpl.
    destruct (d =? 48) eqn:E0.
    + apply N.eqb_eq in E0. subst d. reflexivity.
    + destruct (isDigit d); [reflexivity | discriminate].
  - right; right; right; right. rewrite E.
    assert (c = 48) by char_lia. subst c. reflexivity.
  - right; right; right; right. rewrite E. simpl.
    destruct (c =? c_minus) eqn:Em; [exfalso; char_lia | assumption].
  - right; left.
    assert (c = 116) by char_lia. subst c.
    apply (trim_is_word s 116 (js "rue") r TTrue more (JBool true) w E Hgo);
      [reflexivity | exact Hparse].
  - right; right; left.
    assert (c = 102) by char_lia. subst c.
    apply (trim_is_word s 102 (js "alse") r TFalse more (JBool false) w E Hgo);
      [reflexivity | exact Hparse].
  - right; right; right; left.
    assert (c = 110) by char_lia. subst c.
    apply (trim_is_word s 110 (js "ull") r TNull more JNull w E Hgo);
      [reflexivity | exact Hparse].
Qed.

(** *** The rewrite patterns on a trimmed text *)

Lemma span_more (p : char -> bool) (A W r : str) (k : char) :
  dropWhile p A = k :: r ->
  takeWhile p (A ++ W) = takeWhile p A
  /\ dropWhile p (A ++ W) = k :: r ++ W.
Proof.
  induction A as [|a A IH]; simpl; [discriminate|].
  destruct (p a).
  - intros H. destruct (IH H) as [-> ->]. split; reflexivity.
  - intros H. inversion H; subst. split; reflexivity.
Qed.

Lemma match_key_extends : extends match_key.
Proof.
  intros A W res. destruct A as [|d r]; [discriminate|].
  change ((d :: r) ++ W) with (d :: r ++ W). unfold match_key. cbv zeta.
  destruct ((d =? c_lbrace) || (d =? c_comma)); [|discriminate].
  destruct (dropWhile isWhiteSpace r) as [|i0 r1] eqn:E1; [discriminate|].
  destruct (span_more isWhiteSpace r W r1 i0 E1) as [-> ->].
  destruct (isIdentStart i0); [|discriminate].
  destruct (dropWhile isWhiteSpace (dropWhile isIdentPart r1)) as [|k r3] eqn:E3;
    [discriminate|].
  destruct (dropWhile isIdentPart r1) as [|j r2] eqn:E2; [discriminate|].
  destruct (span_more isIdentPart r1 W r2 j E2) as [-> ->].
  change (j :: r2 ++ W) with ((j :: r2) ++ W).
  destruct (span_more isWhiteSpace (j :: r2) W r3 k E3) as [-> ->].
  auto.
Qed.

Lemma match_trailing_comma_extends : extends match_trailing_comma.
Proof.
  intros A W res. destruct A as [|d r]; [discriminate|].
  change ((d :: r) ++ W) with (d :: r ++ W). unfold match_trailing_comma. cbv zeta.
  destruct (d =? c_comma); [|discriminate].
  destruct (dropWhile isWhiteSpace r) as [|b r1] eqn:E1; [discriminate|].
  destruct (span_more isWhiteSpace r W r1 b E1) as [-> ->].
  auto.
Qed.

Lemma patternOccurs_prefix (m : str -> option (str * nat)) (A W : str) :
  extends m -> patternOccurs m (A ++ W) = false -> patternOccurs m A = false.
Proof.
  intros Hext. induction A as [|a A IH]; [reflexivity|].
  change ((a :: A) ++ W) with (a :: A ++ W). simpl.
  destruct (m (a :: A)) as [res|] eqn:E.
  - change (a :: A ++ W) with ((a :: A) ++ W).
    rewrite (Hext (a :: A) W res E). discriminate.
  - destruct (m (a :: A ++ W)); [discriminate | exact IH].
Qed.

Lemma patternOccurs_suffix (m : str -> option (str * nat)) (A B : str) :
  patternOccurs m (A ++ B) = false -> patternOccurs m B = false.
Proof.
  induction A as [|a A IH]; [auto|].
  change ((a :: A) ++ B) with (a :: A ++ B). simpl.
  destruct (m (a :: A ++ B)); [discriminate | exact IH].
Qed.

Lemma trimStart_suffix (s : str) : exists W, s = W ++ trimStart s.
Proof.
  unfold trimStart. induction s as [|c s [W IH]]; [exists []; reflexivity|].
  simpl. destruct (isWhiteSpace c).
  - exists (c :: W). simpl. rewrite <- IH. reflexivity.
  - exists []. reflexivity.
Qed.

Lemma trimEnd_prefix (s : str) : exists W, s = trimEnd s ++ W.
Proof.
  induction s as [|c s [W IH]]; [exists []; reflexivity|].
  simpl. destruct (trimEnd s) as [|k kept].
  - destruct (isWhiteSpace c).
    + exists (c :: s). reflexivity.
    + exists W. simpl in IH. rewrite <- IH. reflexivity.
  - exists W. simpl. rewrite IH at 1. reflexivity.
Qed.

Lemma patternOccurs_trim (m : str -> option (str * nat)) (s : str) :
  extends m -> patternOccurs m s = false -> patternOccurs m (trim s) = false.
Proof.
  intros Hext H. unfold trim.
  destruct (trimStart_suffix s) as (W1 & E1).
  destruct (trimEnd_prefix (trimStart s)) as (W2 & E2).
  rewrite E1 in H. apply patternOccurs_suffix in H.
  rewrite E2 in H. apply (patternOccurs_prefix m _ W2 Hext H).
Qed.

(** The Normalizer returns a trimmed valid text unchanged when neither
    rewrite pattern occurs in the text. *)
Lemma normalizeToJSON_valid (s : str) (v : JSONValue) :
  JSON_parse s = Ok v ->
  patternOccurs match_key s = false ->
  patternOccurs match_trailing_comma s = false ->
  normalizeToJSON (trim s) = trim s.
Proof.
  intros Hs Hk Ht. rewrite normalizeToJSON_units.
  apply JSON_parse_trim in Hs. unfold JSON_parse in Hs.
  destruct (lex_go LStart (trim s)) as [toks|] eqn:Hlex; [|discriminate].
  pose proof (lex_scanStable (trim s) LStart toks I Hlex) as Hscan.
  simpl in Hscan. rewrite Hscan.
  rewrite (replaceAll_no_occurrence match_key _
             (patternOccurs_trim _ s match_key_extends Hk)).
  apply (replaceAll_no_occurrence match_trailing_comma _
           (patternOccurs_trim _ s match_trailing_comma_extends Ht)).
Qed.

(** C1, as stated, fails: a valid JSON text whose string holds a comma,
    an identifier and a colon is rewritten into text the decoder rejects,
    and one whose string holds a comma before a closing bracket decodes
    to a different string. *)
Lemma valid_json_string_body_rewritten :
  JSON_parse c1_text = Ok (JArray [JString (js "a,b:c")])
  /\ parseJSON (Value (JString c1_text)) None = Throw SyntaxError
  /\ JSON_parse c1_comma = Ok (JArray [JString (js "a,]")])
  /\ parseJSON (Value (JString c1_comma)) None = Ok (JArray [JString (js "a]")]).
Proof. repeat split; vm_compute; reflexivity. Qed.

(** C1 (amended): for every valid strict-JSON text in which neither
    rewrite pattern of the Normalizer occurs, normalization leaves the
    trimmed text unchanged and unkeyed extraction returns the value the
    strict decoder returns for the text. *)
Theorem valid_json_extracted_as_decoded (s : str) (v : JSONValue) :
  JSON_parse s = Ok v ->
  patternOccurs match_key s = false ->
  patternOccurs match_trailing_comma s = false ->
  normalizeToJSON (trim s) = trim s
  /\ parseJSON (Value (JString s)) None = Ok v.
Proof.
  intros Hs Hk Ht.
  pose proof (normalizeToJSON_valid s v Hs Hk Ht) as Hnorm.
  split; [exact Hnorm|].
  unfold parseJSON. rewrite parsedOf_text. unfold locatedBlock.
  rewrite (looksLikeJSON_valid s v Hs), Hnorm, (JSON_parse_trim s v Hs).
  reflexivity.
Qed.

Lemma valid_json_extracted_as_decoded_witness :
  normalizeToJSON (trim c1_plain) = trim c1_plain
  /\ parseJSON (Value (JString c1_plain)) None
     = Ok (JObject [(js "a", JArray [JNumber (js "1"); JString (js "x y")])]).
Proof.
  apply (valid_json_extracted_as_decoded c1_plain); vm_compute; reflexivity.
Defined.

(** ** Strict JSON containers are balanced blocks *)

Lemma lex_start_brackets (c : char) (st' : lex_state) (tk : list token) :
  lex_start c = Some (st', tk) -> filter is_bracket tk = bracket_of_char c.
Proof.
  unfold lex_start. intros H.
  destruct (isJSONWhiteSpace c) eqn:Ej.
  { inversion H; subst. unfold isJSONWhiteSpace in Ej.
    repeat (apply orb_true_iff in Ej; destruct Ej as [Ej | Ej]);
      apply N.eqb_eq in Ej; subst; reflexivity. }
  split_ifs H; inversion H; subst; clear H; unfold bracket_of_char;
    repeat match goal with
      | E : (c =? _) = _ |- _ => rewrite E; clear E
      end; reflexivity.
Qed.

Lemma bracket_of_untested_only (c : char) :
  untested c = false -> bracket_of_char c = [].
Proof.
  unfold untested. intros H.
  apply andb_false_iff in H. destruct H as [H | H];
    [apply andb_false_iff in H; destruct H as [H | H]|];
    apply negb_false_iff in H; apply N.eqb_eq in H; subst; reflexivity.
Qed.

Lemma bracket_of_char_nil (c : char) :
  (c =? c_lbrace) = false -> (c =? c_rbrace) = false ->
  (c =? c_lbracket) = false -> (c =? c_rbracket) = false ->
  bracket_of_char c = [].
Proof. intros H1 H2 H3 H4. unfold bracket_of_char. rewrite H1, H2, H3, H4. reflexivity. Qed.

Lemma num_step_not_bracket (ph ph' : num_phase) (c : char) :
  num_step ph c = Some ph' -> bracket_of_char c = [].
Proof.
  intros H. apply bracket_of_char_nil;
    (destruct (c =? _) eqn:E; [|reflexivity]; exfalso;
     apply N.eqb_eq in E; subst c; destruct ph; discriminate).
Qed.

Lemma wordChar_not_bracket (c : char) :
  wordChar c = true -> bracket_of_char c = [].
Proof.
  intros H. apply bracket_of_char_nil;
    (destruct (c =? _) eqn:E; [|reflexivity]; exfalso;
     apply N.eqb_eq in E; subst c; discriminate).
Qed.

(** The bracket tokens a character gives: its own when it stands outside
    the strings, none inside. *)
Lemma lex_step_brackets (st st' : lex_state) (c : char) (tk : list token) :
  lex_state_ok st ->
  lex_step st c = Some (st', tk) ->
  filter is_bracket tk = if inString_of st then [] else bracket_of_char c.
Proof.
  intros Hok. destruct st as [|acc|acc|acc hex|ph lit|expect t]; simpl; intros H.
  - apply (lex_start_brackets c st' tk H).
  - split_ifs H; inversion H; subst; reflexivity.
  - split_ifs H; [inversion H; subst; reflexivity|].
    destruct (escape_value c); inversion H; subst; reflexivity.
  - destruct (hex_value c); [|discriminate].
    destruct hex as [|d1 [|d2 [|d3 [|d4 hex]]]]; inversion H; subst; reflexivity.
  - destruct (num_step ph c) as [ph'|] eqn:En.
    + inversion H; subst. rewrite (num_step_not_bracket ph ph' c En). reflexivity.
    + destruct (num_complete ph); [|discriminate].
      destruct (lex_start c) as [[st1 tk1]|] eqn:E; [|discriminate].
      inversion H; subst. simpl. apply (lex_start_brackets c st' tk1 E).
  - destruct expect as [|e rest]; [discriminate|].
    destruct Hok as [Hw Hb].
    simpl in Hw. apply andb_true_iff in Hw. destruct Hw as [He _].
    destruct (c =? e) eqn:Ece; [|discriminate].
    apply N.eqb_eq in Ece. subst e.
    rewrite (wordChar_not_bracket c He).
    destruct rest; inversion H; subst; simpl; [rewrite Hb|]; reflexivity.
Qed.

(** The flags of the extractor follow the lexer in and out of strings. *)
Lemma lex_step_flags (st st' : lex_state) (c : char) (tk : list token) :
  lex_state_ok st ->
  lex_step st c = Some (st', tk) ->
  (inString_of st', escape_of st') = quote_step (inString_of st, escape_of st) c.
Proof.
  intros Hok H.
  assert (Hstart : forall st1 tk1, lex_start c = Some (st1, tk1) ->
            (inString_of st1, escape_of st1) = quote_step (false, false) c).
  { intros st1 tk1 E.
    destruct (lex_start_cases c st1 tk1 E) as (_ & [(-> & -> & _) | (Hu & Hout)]).
    - reflexivity.
    - destruct (untested_tests c Hu) as (_ & H2 & H3).
      unfold quote_step. simpl. rewrite H3, H2.
      destruct st1; try discriminate; reflexivity. }
  assert (Hplain : forall st1, untested c = true -> outsideString st1 = true ->
            (inString_of st1, escape_of st1) = quote_step (false, false) c).
  { intros st1 Hu Hout. destruct (untested_tests c Hu) as (_ & H2 & H3).
    unfold quote_step. simpl. rewrite H3, H2.
    destruct st1; try discriminate; reflexivity. }
  destruct st as [|acc|acc|acc hex|ph lit|expect t]; simpl in H.
  - apply (Hstart st' tk H).
  - unfold quote_step. simpl.
    destruct (c =? c_dquote) eqn:Eq.
    { inversion H; subst. apply N.eqb_eq in Eq. subst c. reflexivity. }
    destruct (c =? c_backslash) eqn:Eb; [inversion H; subst; reflexivity|].
    destruct (c <? 32); inversion H; subst. reflexivity.
  - unfold quote_step. simpl.
    destruct (c =? 117); [inversion H; subst; reflexivity|].
    destruct (escape_value c); inversion H; subst; reflexivity.
  - destruct (hex_value c) as [d|] eqn:Eh; [|discriminate].
    destruct (untested_tests c (hex_value_untested c d Eh)) as (_ & H2 & H3).
    unfold quote_step. simpl. rewrite H3, H2.
    destruct hex as [|d1 [|d2 [|d3 [|d4 hex]]]]; inversion H; subst; reflexivity.
  - destruct (num_step ph c) as [ph'|] eqn:En.
    + inversion H; subst.
      apply (Hplain (LNumber ph' (lit ++ [c])) (num_step_untested ph ph' c En)).
      reflexivity.
    + destruct (num_complete ph); [|discriminate].
      destruct (lex_start c) as [[st1 tk1]|] eqn:E; [|discriminate].
      inversion H; subst. apply (Hstart st' tk1 eq_refl).
  - destruct expect as [|e rest]; [discriminate|].
    destruct Hok as [Hw _].
    simpl in Hw. apply andb_true_iff in Hw. destruct Hw as [He _].
    destruct (c =? e) eqn:Ece; [|discriminate].
    apply N.eqb_eq in Ece. subst e.
    destruct rest; inversion H; subst;
      (apply Hplain; [exact (wordChar_untested c He) | reflexivity]).
Qed.

(** *** The parser and the open containers *)

Lemma chain_deliver (v : JSONValue) (stack : list frame) :
  chain (deliver v stack) = map frame_kind stack.
Proof. destruct stack as [|[items|entries key] stack]; reflexivity. Qed.

Lemma deliver_started (v : JSONValue) (stack : list frame) :
  deliver v stack <> PValue [].
Proof. destruct stack as [|[items|entries key] stack]; discriminate. Qed.

Lemma parse_value_chain (stack : list frame) (t : token) (ps' : parse_state) :
  parse_value stack t = Some ps' ->
  chain ps' = token_step t (map frame_kind stack)
  /\ closer_ok t (map frame_kind stack) /\ ps' <> PValue [].
Proof.
  destruct t; simpl; intros H; inversion H; subst;
    rewrite ?chain_deliver; repeat split;
    try reflexivity; try discriminate; apply deliver_started.
Qed.

Lemma parse_step_chain (ps ps' : parse_state) (t : token) :
  parse_step ps t = Some ps' ->
  chain ps' = token_step t (chain ps)
  /\ closer_ok t (chain ps) /\ ps' <> PValue [].
Proof.
  destruct ps as [stack|stack|stack|entries stack|entries key stack
                 |items stack|entries stack|v]; simpl.
  - apply parse_value_chain.
  - destruct t; intros H;
      try (destruct (parse_value_chain (FArray [] :: stack) _ ps' H)
             as (E & _ & Hs);
           simpl in E; rewrite E; repeat split; try reflexivity; exact Hs).
    + simpl in H. discriminate.
    + inversion H; subst. rewrite chain_deliver.
      repeat split; try reflexivity. apply deliver_started.
  - destruct t; intros H; inversion H; subst; rewrite ?chain_deliver;
      repeat split; try reflexivity; try discriminate; apply deliver_started.
  - destruct t; intros H; inversion H; subst;
      repeat split; try reflexivity; discriminate.
  - destruct t; intros H; inversion H; subst;
      repeat split; try reflexivity; discriminate.
  - destruct t; intros H; inversion H; subst; rewrite ?chain_deliver;
      repeat split; try reflexivity; try discriminate; apply deliver_started.
  - destruct t; intros H; inversion H; subst; rewrite ?chain_deliver;
      repeat split; try reflexivity; try discriminate; apply deliver_started.
  - discriminate.
Qed.

Lemma parse_go_app (ps : parse_state) (tk more : list token) :
  parse_go ps (tk ++ more)
  = match parse_steps ps tk with
    | Some ps' => parse_go ps' more
    | None => None
    end.
Proof.
  revert ps. induction tk as [|t tk IH]; intros ps; [reflexivity|].
  simpl. destruct (parse_step ps t); [apply IH | reflexivity].
Qed.

Lemma parse_steps_chain (tk : list token) :
  forall ps ps',
    parse_steps ps tk = Some ps' ->
    brackets_lead (filter is_bracket tk) (chain ps) (chain ps')
    /\ (ps <> PValue [] -> ps' <> PValue []).
Proof.
  induction tk as [|t tk IH]; intros ps ps' H.
  - inversion H; subst. split; [reflexivity | auto].
  - simpl in H. destruct (parse_step ps t) as [ps1|] eqn:E; [|discriminate].
    destruct (parse_step_chain ps ps1 t E) as (Hc & Hok & Hs).
    destruct (IH ps1 ps' H) as (Hlead & Hst).
    split; [|auto].
    simpl. destruct (is_bracket t) eqn:Eb.
    + split; [exact Hok|]. rewrite <- Hc. exact Hlead.
    + assert (Hsame : chain ps1 = chain ps)
        by (rewrite Hc; destruct t; try discriminate; reflexivity).
      rewrite <- Hsame. exact Hlead.
Qed.

Lemma chain_done (ps : parse_state) :
  chain ps = [] -> ps <> PValue [] -> exists v, ps = PDone v.
Proof.
  destruct ps as [[|f stack]| | | | | | |v]; simpl; intros H Hs;
    try discriminate; [contradiction | eauto].
Qed.

(** *** Counting the open containers *)

Lemma kind_eqb_refl (k : kind) : kind_eqb k k = true.
Proof. destruct k; reflexivity. Qed.

Lemma kcount_cons_same (k : kind) (ch : list kind) :
  kcount k (k :: ch) = S (kcount k ch).
Proof. unfold kcount. simpl. rewrite kind_eqb_refl. reflexivity. Qed.

Lemma rooted_count (k : kind) (ch : list kind) :
  rooted k ch -> (1 <= kcount k ch)%nat.
Proof.
  intros (pre & ->). unfold kcount. rewrite filter_app, length_app.
  simpl. rewrite kind_eqb_refl. simpl. lia.
Qed.

Lemma rooted_cons (k x : kind) (ch : list kind) :
  rooted k ch -> rooted k (x :: ch).
Proof. intros (pre & ->). exists (x :: pre). reflexivity. Qed.

Lemma rooted_tail (k x : kind) (ch : list kind) :
  rooted k (x :: ch) -> ch <> [] -> rooted k ch.
Proof.
  intros (pre & E) Hne. destruct pre as [|y pre].
  - inversion E; subst. contradiction.
  - inversion E; subst. exists pre. reflexivity.
Qed.

Lemma rooted_other_head (k x : kind) (ch : list kind) :
  rooted k (x :: ch) -> x <> k -> rooted k ch.
Proof.
  intros (pre & E) Hne. destruct pre as [|y pre].
  - inversion E; subst. contradiction.
  - inversion E; subst. exists pre. reflexivity.
Qed.

(** What the bracket of a character outside the strings does to the
    count of the open containers of kind [k]. *)
Lemma bracket_effect (k : kind) (c : char) (ch ch' : list kind) :
  brackets_lead (bracket_of_char c) ch ch' ->
  rooted k ch ->
  if c =? opener_of k then ch' = k :: ch
  else if c =? closer_of k then ch = k :: ch'
  else kcount k ch' = kcount k ch /\ rooted k ch'.
Proof.
  intros Hlead Hroot. unfold bracket_of_char in Hlead.
  destruct (c =? c_lbrace) eqn:E1;
    [|destruct (c =? c_rbrace) eqn:E2;
      [|destruct (c =? c_lbracket) eqn:E3;
        [|destruct (c =? c_rbracket) eqn:E4]]];
    try (apply N.eqb_eq in E1; subst c);
    try (apply N.eqb_eq in E2; subst c);
    try (apply N.eqb_eq in E3; subst c);
    try (apply N.eqb_eq in E4; subst c);
    simpl in Hlead.
  - destruct Hlead as (_ & ->). destruct k; simpl; [reflexivity|].
    split; [reflexivity | apply rooted_cons; exact Hroot].
  - destruct Hlead as (Hhd & ->).
    destruct ch as [|x ch]; [discriminate|]. inversion Hhd; subst x.
    destruct k; simpl; [reflexivity|].
    split; [reflexivity|]. apply (rooted_other_head KArray KObject ch Hroot).
    discriminate.
  - destruct Hlead as (_ & ->). destruct k; simpl; [|reflexivity].
    split; [reflexivity | apply rooted_cons; exact Hroot].
  - destruct Hlead as (Hhd & ->).
    destruct ch as [|x ch]; [discriminate|]. inversion Hhd; subst x.
    destruct k; simpl; [|reflexivity].
    split; [reflexivity|]. apply (rooted_other_head KObject KArray ch Hroot).
    discriminate.
  - subst ch'. destruct k; simpl; rewrite ?E1, ?E2, ?E3, ?E4; auto.
Qed.

Lemma escape_in_string (st : lex_state) :
  escape_of st = true -> inString_of st = true.
Proof. destruct st; simpl; auto; discriminate. Qed.

Lemma noTrailing_tail (c : char) (rest : str) :
  noTrailing (c :: rest) -> noTrailing rest.
Proof. intros H A w E. apply (H (c :: A) w). rewrite E. reflexivity. Qed.

Lemma noTrailing_nothing (c : char) (rest : str) :
  noTrailing (c :: rest) -> forallb isJSONWhiteSpace rest = true -> rest = [].
Proof.
  intros H Hws. destruct rest as [|x rest0]; [reflexivity|]. exfalso.
  assert (Hne : x :: rest0 <> []) by discriminate.
  destruct (exists_last Hne) as (A & w & E). rewrite E in Hws, H.
  rewrite forallb_app in Hws. apply andb_true_iff in Hws. destruct Hws as [_ Hw].
  simpl in Hw. rewrite andb_true_r in Hw.
  pose proof (jsonWhiteSpace_whitespace w Hw) as Hw'.
  rewrite (H (c :: A) w eq_refl) in Hw'. discriminate.
Qed.

Lemma rooted_started (k : kind) (ps : parse_state) :
  rooted k (chain ps) -> ps <> PValue [].
Proof. intros (pre & E) ->. destruct pre; discriminate. Qed.

Section Lockstep.
Variables (k : kind) (text : str) (start : nat).

(** The extractor, the lexer and the parser read a container together:
    the flags are the lexer's, the depth is the number of open containers
    of the kind, and the loop returns where the outermost one closes. *)
Lemma strict_lockstep (rest : str) :
  forall (st : lex_state) (ps : parse_state) (toks : list token)
         (v : JSONValue) (i : nat),
    lex_state_ok st ->
    lex_go st rest = Some toks ->
    parse_go ps toks = Some v ->
    rooted k (chain ps) ->
    noTrailing rest ->
    extractBalanced_loop text start (opener_of k) (closer_of k) rest i
      (Z.of_nat (kcount k (chain ps))) (inString_of st) (escape_of st)
    = Some (slice text start (i + length rest)).
Proof.
  induction rest as [|c rest IH]; intros st ps toks v i Hok Hlex Hparse Hroot Hnt.
  - exfalso. destruct Hroot as (pre & Hch).
    destruct st; simpl in Hlex; try discriminate.
    + inversion Hlex; subst. simpl in Hparse.
      destruct ps; try discriminate. destruct pre; discriminate.
    + destruct (num_complete ph); [|discriminate].
      inversion Hlex; subst. simpl in Hparse.
      destruct (parse_step ps (TNumber lit)) as [ps1|] eqn:E; [|discriminate].
      destruct (parse_step_chain ps ps1 _ E) as (Hc & _).
      destruct ps1; try discriminate. simpl in Hc. rewrite Hch in Hc.
      destruct pre; discriminate.
  - destruct (lex_go_step st c rest toks Hlex) as (st' & tk & more & Hstep & Hgo & ->).
    rewrite parse_go_app in Hparse.
    destruct (parse_steps ps tk) as [ps'|] eqn:Hps; [|discriminate].
    destruct (parse_steps_chain tk ps ps' Hps) as (Hlead & Hst).
    rewrite (lex_step_brackets st st' c tk Hok Hstep) in Hlead.
    pose proof (lex_step_flags st st' c tk Hok Hstep) as Hflags.
    pose proof (lex_step_ok st st' c tk Hok Hstep) as Hok'.
    assert (Hcont : forall d inS esc,
               rooted k (chain ps') ->
               d = Z.of_nat (kcount k (chain ps')) ->
               (inS, esc) = quote_step (inString_of st, escape_of st) c ->
               extractBalanced_loop text start (opener_of k) (closer_of k) rest
                 (S i) d inS esc
               = Some (slice text start (i + length (c :: rest)))).
    { intros d inS esc Hr -> Hq. rewrite <- Hflags in Hq. inversion Hq; subst.
      rewrite (IH st' ps' more v (S i) Hok' Hgo Hparse Hr (noTrailing_tail c rest Hnt)).
      f_equal. f_equal. simpl. lia. }
    assert (Hsame : chain ps' = chain ps -> forall inS esc,
               (inS, esc) = quote_step (inString_of st, escape_of st) c ->
               extractBalanced_loop text start (opener_of k) (closer_of k) rest
                 (S i) (Z.of_nat (kcount k (chain ps))) inS esc
               = Some (slice text start (i + length (c :: rest)))).
    { intros E inS esc Hq. apply Hcont; [rewrite E; exact Hroot | rewrite E; reflexivity
                                        | exact Hq]. }
    simpl extractBalanced_loop. unfold quote_step in Hcont, Hsame. simpl in Hcont, Hsame.
    destruct (escape_of st) eqn:Eesc.
    { rewrite (escape_in_string st Eesc) in *. apply Hsame; [exact Hlead | reflexivity]. }
    destruct (c =? c_backslash) eqn:Eb.
    { apply Hsame; [|reflexivity]. apply N.eqb_eq in Eb. subst c.
      destruct (inString_of st); exact Hlead. }
    destruct (c =? c_dquote) eqn:Eq.
    { assert (E : chain ps' = chain ps).
      { apply N.eqb_eq in Eq. subst c. destruct (inString_of st); exact Hlead. }
      destruct (inString_of st); simpl; apply Hsame; auto. }
    simpl.
    destruct (inString_of st) eqn:Ein.
    { apply Hsame; [exact Hlead | reflexivity]. }
    pose proof (bracket_effect k c (chain ps) (chain ps') Hlead Hroot) as Heff.
    destruct (c =? opener_of k) eqn:Eo.
    { apply Hcont; [rewrite Heff; apply rooted_cons; exact Hroot | | reflexivity].
      rewrite Heff, kcount_cons_same. lia. }
    destruct (c =? closer_of k) eqn:Ec.
    { rewrite Heff, kcount_cons_same.
      replace (Z.of_nat (S (kcount k (chain ps'))) - 1)%Z
        with (Z.of_nat (kcount k (chain ps'))) by lia.
      destruct (chain ps') as [|x ch'] eqn:Ech.
      - (* the outermost container closes: nothing may follow *)
        simpl. f_equal. f_equal.
        destruct (chain_done ps' Ech (Hst (rooted_started k ps Hroot))) as (v' & ->).
        apply parse_go_done in Hparse. subst more.
        assert (Hst' : st' = LStart).
        { destruct st'; try reflexivity;
            exfalso; refine (lex_emits rest _ [] _ Hgo eq_refl); discriminate. }
        subst st'.
        rewrite (noTrailing_nothing c rest Hnt (lex_nothing rest Hgo)).
        simpl. lia.
      - assert (Hr : rooted k (x :: ch')).
        { apply (rooted_tail k k); [rewrite <- Heff; exact Hroot | discriminate]. }
        pose proof (rooted_count k _ Hr) as Hpos.
        destruct (Z.of_nat (kcount k (x :: ch')) =? 0)%Z eqn:Ez;
          [apply Z.eqb_eq in Ez; lia|].
        rewrite <- Ech in *. apply Hcont; [exact Hr | reflexivity | reflexivity]. }
    destruct Heff as (Hcount & Hr).
    apply Hcont; [exact Hr | rewrite Hcount; reflexivity | reflexivity].
Qed.
End Lockstep.

(** ** Assignment form *)

(** Where the loop returns, and that it returns there whatever the text
    around the part it read. *)
Lemma extractBalanced_loop_end (open close : char) (rest : str) :
  forall (text : str) (start i : nat) (d : Z) (inString escape : bool) (block : str),
    extractBalanced_loop text start open close rest i d inString escape = Some block ->
    exists n,
      (n < length rest)%nat
      /\ nth_error rest n = Some close
      /\ block = slice text start (S (i + n))
      /\ forall text' start' i' tail,
           extractBalanced_loop text' start' open close (rest ++ tail) i' d
             inString escape
           = Some (slice text' start' (S (i' + n))).
Proof.
  induction rest as [|ch rest IH]; intros text start i d inString escape block H;
    [discriminate|].
  assert (Hnext : forall d' inS' esc',
             extractBalanced_loop text start open close rest (S i) d' inS' esc'
             = Some block ->
             (forall text' start' i' tail,
                 extractBalanced_loop text' start' open close ((ch :: rest) ++ tail)
                   i' d inString escape
                 = extractBalanced_loop text' start' open close (rest ++ tail)
                     (S i') d' inS' esc') ->
             exists n,
               (n < length (ch :: rest))%nat
               /\ nth_error (ch :: rest) n = Some close
               /\ block = slice text start (S (i + n))
               /\ forall text' start' i' tail,
                    extractBalanced_loop text' start' open close
                      ((ch :: rest) ++ tail) i' d inString escape
                    = Some (slice text' start' (S (i' + n)))).
  { intros d' inS' esc' Hrec Hsame.
    destruct (IH text start (S i) d' inS' esc' block Hrec) as (n & Hn & Hnth & Hb & Hall).
    exists (S n). split; [simpl; lia|]. split; [exact Hnth|].
    split; [rewrite Hb; f_equal; lia|].
    intros text' start' i' tail. rewrite Hsame, Hall. f_equal. f_equal. lia. }
  simpl in H.
  destruct escape; [apply (Hnext _ _ _ H); reflexivity|].
  destruct (ch =? c_backslash) eqn:Eb;
    [apply (Hnext _ _ _ H); intros; simpl; rewrite Eb; reflexivity|].
  destruct (ch =? c_dquote) eqn:Eq.
  { destruct inString; simpl in H;
      (apply (Hnext _ _ _ H); intros; simpl; rewrite Eb, Eq; reflexivity). }
  simpl in H.
  destruct inString;
    [apply (Hnext _ _ _ H); intros; simpl; rewrite Eb, Eq; reflexivity|].
  destruct (ch =? open) eqn:Eo;
    [apply (Hnext _ _ _ H); intros; simpl; rewrite Eb, Eq, Eo; reflexivity|].
  destruct (ch =? close) eqn:Ec;
    [|apply (Hnext _ _ _ H); intros; simpl; rewrite Eb, Eq, Eo, Ec; reflexivity].
  destruct ((d - 1 =? 0)%Z) eqn:Ez;
    [|apply (Hnext _ _ _ H); intros; simpl; rewrite Eb, Eq, Eo, Ec, Ez; reflexivity].
  inversion H; subst block. apply N.eqb_eq in Ec. subst ch.
  exists O. split; [simpl; lia|]. split; [reflexivity|].
  split; [rewrite Nat.add_0_r; reflexivity|].
  intros text' start' i' tail. simpl. rewrite Eb, Eq, Eo, N.eqb_refl, Ez.
  rewrite Nat.add_0_r. reflexivity.
Qed.

Lemma firstn_whole (s : str) (n : nat) :
  firstn n s = s -> (n <= length s)%nat -> n = length s.
Proof.
  intros H Hle. apply (f_equal (@length char)) in H.
  rewrite length_firstn in H. lia.
Qed.

(** A text that is its own balanced block ends with the closing
    delimiter, and is the block extracted wherever the text stands. *)
Lemma extractBalanced_whole (literal : str) (open close : char) :
  extractBalanced literal 0 open close = Some literal ->
  (exists body, literal = body ++ [close])
  /\ forall pre tail,
       extractBalanced (pre ++ literal ++ tail) (length pre) open close
       = Some literal.
Proof.
  unfold extractBalanced. simpl skipn. intros H.
  destruct (extractBalanced_loop_end open close literal literal 0 0 0%Z false false
              literal H) as (n & Hn & Hnth & Hb & Hall).
  simpl in Hb. unfold slice in Hb. simpl in Hb.
  assert (Hlen : S n = length literal).
  { apply firstn_whole; [symmetry; exact Hb | lia]. }
  split.
  - exists (firstn n literal). rewrite <- (firstn_snoc_nth literal n close Hnth).
    exact Hb.
  - intros pre tail.
    replace (skipn (length pre) (pre ++ literal ++ tail)) with (literal ++ tail)
      by (rewrite skipn_app, skipn_all, Nat.sub_diag; reflexivity).
    rewrite Hall. f_equal. unfold slice.
    replace (S (length pre + n) - length pre)%nat with (S n) by lia.
    rewrite skipn_app, skipn_all, Nat.sub_diag. cbn [skipn app].
    rewrite Hlen, firstn_app, Nat.sub_diag, firstn_all. simpl.
    apply app_nil_r.
Qed.

(** *** Trimming around the literal *)

Lemma trimEnd_app_kept (A B : str) :
  trimEnd B <> [] -> trimEnd (A ++ B) = A ++ trimEnd B.
Proof.
  intros HB. induction A as [|a A IH]; [reflexivity|].
  change ((a :: A) ++ B) with (a :: A ++ B). simpl trimEnd. rewrite IH.
  destruct (A ++ trimEnd B) eqn:E; [|simpl; rewrite E; reflexivity].
  apply app_eq_nil in E. destruct E as [_ E]. contradiction.
Qed.

Lemma trim_assignment (lhs ws body tail : str) (close : char) :
  isWhiteSpace close = false ->
  trim (assignmentText lhs ws (body ++ [close]) tail)
  = assignmentText (trimStart lhs) ws (body ++ [close]) (trimEnd tail).
Proof.
  intros Hc. unfold trim, assignmentText, trimStart.
  destruct (span_stop isWhiteSpace lhs (ws ++ (body ++ [close]) ++ tail) c_equals
              eq_refl) as [_ ->].
  replace (dropWhile isWhiteSpace lhs ++ c_equals :: ws ++ (body ++ [close]) ++ tail)
    with ((dropWhile isWhiteSpace lhs ++ c_equals :: ws ++ body) ++ close :: tail)
    by (rewrite <- ?app_assoc; simpl; rewrite <- ?app_assoc; reflexivity).
  rewrite trimEnd_app_kept
    by (rewrite (trimEnd_cons_kept close tail Hc); discriminate).
  rewrite (trimEnd_cons_kept close tail Hc).
  rewrite <- ?app_assoc; simpl; rewrite <- ?app_assoc; reflexivity.
Qed.

Lemma trim_literal (open close : char) (rest body : str) :
  isWhiteSpace open = false -> isWhiteSpace close = false ->
  open :: rest = body ++ [close] ->
  trim (open :: rest) = open :: rest.
Proof.
  intros Ho Hc E. unfold trim, trimStart. simpl dropWhile. rewrite Ho, E.
  rewrite trimEnd_app_kept by (simpl; rewrite Hc; discriminate).
  simpl. rewrite Hc. reflexivity.
Qed.

(** *** The Classifier before an equals sign *)

Lemma startsWith_one (t : str) (ch : char) :
  startsWith t [ch] = match t with [] => false | y :: _ => ch =? y end.
Proof.
  destruct t as [|y t]; [reflexivity|]. simpl.
  destruct t; apply andb_true_r.
Qed.

Lemma str_eqb_without (c : char) (a b : str) :
  In c a -> ~ In c b -> str_eqb a b = false.
Proof.
  intros Ha Hb. destruct (str_eqb a b) eqn:E; [|reflexivity].
  apply str_eqb_eq in E. subst. contradiction.
Qed.

Lemma looksLikeJSON_classify (s : str) : looksLikeJSON s = classify (trimStart s).
Proof. reflexivity. Qed.

Lemma classify_before_equals (X Y : str) :
  classify (X ++ c_equals :: Y) = classify (X ++ [c_equals]).
Proof.
  unfold classify.
  change (js "{") with [c_lbrace]. change (js "[") with [c_lbracket].
  change (js "`") with [c_dquote].
  rewrite !startsWith_one.
  assert (Hlit : forall Z lit, ~ In c_equals lit ->
                               str_eqb (X ++ c_equals :: Z) lit = false).
  { intros Z lit Hl. apply (str_eqb_without c_equals); [|exact Hl].
    apply in_or_app. right. left. reflexivity. }
  assert (Hn : forall lit, In lit [js "true"; js "false"; js "null"] ->
                           ~ In c_equals lit).
  { intros lit [<- | [<- | [<- | []]]]; vm_compute; intuition discriminate. }
  rewrite !Hlit by (apply Hn; simpl; auto).
  destruct X as [|x [|y X]]; reflexivity.
Qed.

Lemma indexOf_absent (A Y : str) (c : char) :
  indexOf A c = None -> indexOf (A ++ c :: Y) c = Some (length A).
Proof.
  induction A as [|a A IH]; simpl.
  - rewrite N.eqb_refl. reflexivity.
  - destruct (a =? c); [discriminate|].
    destruct (indexOf A c); [discriminate|].
    intros _. rewrite (IH eq_refl). reflexivity.
Qed.

Lemma indexOf_trimStart (A : str) (c : char) :
  indexOf A c = None -> indexOf (trimStart A) c = None.
Proof.
  unfold trimStart. induction A as [|a A IH]; [auto|].
  intros H. simpl. destruct (isWhiteSpace a); [|exact H].
  apply IH. simpl in H. destruct (a =? c); [discriminate|].
  destruct (indexOf A c); [discriminate | reflexivity].
Qed.

Lemma skipn_past (A R : str) (x : char) :
  skipn (length A + 1) (A ++ x :: R) = R.
Proof. induction A as [|a A IH]; [reflexivity | exact IH]. Qed.

Lemma nth_error_after (A R : str) (x : char) :
  nth_error (A ++ x :: R) (length A) = Some x.
Proof. induction A as [|a A IH]; [reflexivity | exact IH]. Qed.

(** Strategy 2 on a trimmed text of assignment form whose literal is its
    own balanced block: the block it extracts is the literal. *)
Lemma assignmentBlock_literal (lhs ws rest tail : str) (opener closer : char) :
  indexOf lhs c_equals = None ->
  forallb isWhiteSpace ws = true ->
  In (opener, closer) bracketPairs ->
  extractBalanced (opener :: rest) 0 opener closer = Some (opener :: rest) ->
  assignmentBlock (assignmentText lhs ws (opener :: rest) tail)
  = Some (opener :: rest).
Proof.
  intros Hlhs Hws Hpair Hbal.
  assert (Hop : isWhiteSpace opener = false
                /\ (opener =? c_lbrace) || (opener =? c_lbracket) = true
                /\ (if opener =? c_lbrace then c_rbrace else c_rbracket) = closer).
  { destruct Hpair as [E | [E | []]]; inversion E; subst; repeat split; reflexivity. }
  destruct Hop as (Hows & Hopen & Hclose).
  unfold assignmentBlock, assignmentText.
  rewrite (indexOf_absent lhs _ c_equals Hlhs).
  unfold skipWhiteSpaceFrom. rewrite skipn_past.
  change ((opener :: rest) ++ tail) with (opener :: rest ++ tail).
  destruct (span_all isWhiteSpace ws (rest ++ tail) opener Hws Hows) as [-> _].
  replace (lhs ++ c_equals :: ws ++ opener :: rest ++ tail)
    with ((lhs ++ c_equals :: ws) ++ (opener :: rest) ++ tail)
    by (rewrite <- ?app_assoc; reflexivity).
  replace (length lhs + 1 + length ws)%nat with (length (lhs ++ c_equals :: ws))
    by (rewrite length_app; simpl; lia).
  change (((lhs ++ c_equals :: ws) ++ (opener :: rest) ++ tail))
    with ((lhs ++ c_equals :: ws) ++ opener :: rest ++ tail) at 1.
  rewrite nth_error_after, Hopen, Hclose.
  apply (proj2 (extractBalanced_whole (opener :: rest) opener closer Hbal)).
Qed.

(** C9, as stated, fails: the balanced block is delimited before
    normalization and only double-quoted strings are skipped, so a
    closing brace inside a single-quoted string ends the block early;
    the bare literal decodes, the assignment raises. *)
Lemma assignment_single_quoted_brace :
  assignmentBlock (trim (js "x = " ++ c9_quoted_brace)) = Some (js "{'a': '}")
  /\ parseJSON (Value (JString (js "x = " ++ c9_quoted_brace))) None
     = Throw SyntaxError
  /\ parseJSON (Value (JString c9_quoted_brace)) None
     = Ok (JObject [(js "a", JString (js "}"))]).
Proof. repeat split; vm_compute; reflexivity. Qed.

(** C9 (amended): for a text of assignment form, with no equals sign
    before the one of the assignment and not accepted by the Classifier,
    whose literal begins with an opening brace or bracket and is its own
    balanced block, the assignment strategy extracts the literal, and
    the entry point returns what it returns for the bare literal; the
    example extracts the mapping of the bare literal. *)
Theorem assignment_extracts_balanced_literal
    (lhs ws literal tail : str) (opener closer : char) (nodeKey : option str) :
  indexOf lhs c_equals = None ->
  looksLikeJSON (assignmentText lhs ws literal tail) = false ->
  forallb isWhiteSpace ws = true ->
  In (opener, closer) bracketPairs ->
  startsWith literal [opener] = true ->
  extractBalanced literal 0 opener closer = Some literal ->
  (assignmentBlock (trim (assignmentText lhs ws literal tail)) = Some literal
   /\ parseJSON (Value (JString (assignmentText lhs ws literal tail))) nodeKey
      = parseJSON (Value (JString literal)) nodeKey)
  /\ (parseJSON (Value (JString (js "var x = " ++ c9_literal))) None = Ok c9_value
      /\ parseJSON (Value (JString c9_literal)) None = Ok c9_value).
Proof.
  intros Hlhs Hcls Hws Hpair Hstart Hbal.
  split; [|split; vm_compute; reflexivity].
  apply startsWith_char in Hstart. destruct Hstart as (rest & ->).
  destruct (extractBalanced_whole _ _ _ Hbal) as ((body & Ebody) & _).
  assert (Hends : isWhiteSpace opener = false /\ isWhiteSpace closer = false
                  /\ (opener = c_lbrace \/ opener = c_lbracket)).
  { destruct Hpair as [E | [E | []]]; inversion E; subst; repeat split; auto. }
  destruct Hends as (Hows & Hcws & Hopener).
  assert (Htrim : trim (assignmentText lhs ws (opener :: rest) tail)
                  = assignmentText (trimStart lhs) ws (opener :: rest) (trimEnd tail)).
  { rewrite Ebody. apply trim_assignment. exact Hcws. }
  assert (Hblock : assignmentBlock (trim (assignmentText lhs ws (opener :: rest) tail))
                   = Some (opener :: rest)).
  { rewrite Htrim. apply (assignmentBlock_literal _ ws rest _ opener closer);
      auto using indexOf_trimStart. }
  split; [exact Hblock|].
  assert (Hno : looksLikeJSON (trim (assignmentText lhs ws (opener :: rest) tail))
                = false).
  { rewrite looksLikeJSON_classify, trimStart_trim, Htrim.
    unfold assignmentText. rewrite classify_before_equals.
    rewrite looksLikeJSON_classify in Hcls. unfold assignmentText, trimStart in Hcls.
    destruct (span_stop isWhiteSpace lhs (ws ++ (opener :: rest) ++ tail) c_equals
                eq_refl) as [_ E].
    rewrite E, classify_before_equals in Hcls. exact Hcls. }
  assert (Hlit : locatedBlock (trim (opener :: rest)) = Some (opener :: rest)).
  { rewrite (trim_literal opener closer rest body Hows Hcws Ebody).
    unfold locatedBlock.
    rewrite (looksLikeJSON_intro (opener :: rest)); [reflexivity | |].
    - unfold trimStart. simpl. rewrite Hows. reflexivity.
    - left. exists opener, rest. split; [reflexivity|].
      destruct Hopener; auto. }
  unfold parseJSON. rewrite !parsedOf_text, Hlit.
  unfold locatedBlock. rewrite Hno, Hblock. reflexivity.
Qed.

Lemma assignment_extracts_balanced_literal_witness :
  (assignmentBlock (trim (assignmentText (js "var x ") (js " ") c9_literal (js ";")))
   = Some c9_literal
   /\ parseJSON (Value (JString (assignmentText (js "var x ") (js " ") c9_literal
                                   (js ";")))) None
      = parseJSON (Value (JString c9_literal)) None)
  /\ (parseJSON (Value (JString (js "var x = " ++ c9_literal))) None = Ok c9_value
      /\ parseJSON (Value (JString c9_literal)) None = Ok c9_value).
Proof.
  apply (assignment_extracts_balanced_literal (js "var x ") (js " ") c9_literal
           (js ";") c_lbrace c_rbrace None);
    try (vm_compute; reflexivity).
  left. reflexivity.
Defined.

(** * Further properties of the code *)

(** ** Strict JSON amid other text *)

Lemma trim_noTrailing (s : str) : trim s = s -> noTrailing s.
Proof.
  intros Ht A w E. rewrite <- Ht in E. unfold trim in E.
  apply (trimEnd_last _ A w E).
Qed.

Lemma lex_start_opener (k : kind) :
  lex_start (opener_of k)
  = Some (LStart, [match k with KObject => TLBrace | KArray => TLBracket end]).
Proof. destruct k; reflexivity. Qed.

(** A strict-JSON container without surrounding whitespace is the block
    the extractor returns from its first character. *)
Lemma strict_json_balanced
    (k : kind) (literal : str) (v : JSONValue) :
  JSON_parse literal = Ok v ->
  startsWith literal [opener_of k] = true ->
  trim literal = literal ->
  extractBalanced literal 0 (opener_of k) (closer_of k) = Some literal.
Proof.
  intros Hv Hstart Htrim.
  { apply startsWith_char in Hstart. destruct Hstart as (rest & ->).
    unfold JSON_parse in Hv.
    destruct (lex_go LStart (opener_of k :: rest)) as [toks|] eqn:Hlex;
      [|discriminate].
    destruct (parse_go (PValue []) toks) as [w|] eqn:Hparse; [|discriminate].
    inversion Hv; subst w. clear Hv.
    destruct (lex_go_step _ _ _ _ Hlex) as (st' & tk & more & Hstep & Hgo & ->).
    simpl in Hstep. rewrite lex_start_opener in Hstep.
    inversion Hstep; subst st' tk. clear Hstep.
    pose proof (noTrailing_tail _ _ (trim_noTrailing _ Htrim)) as Hnt.
    unfold extractBalanced. simpl skipn.
    assert (Hfirst :
      extractBalanced_loop (opener_of k :: rest) 0 (opener_of k) (closer_of k)
        (opener_of k :: rest) 0 0 false false
      = extractBalanced_loop (opener_of k :: rest) 0 (opener_of k) (closer_of k)
          rest 1 1 false false).
    { simpl. rewrite N.eqb_refl. destruct k; reflexivity. }
    rewrite Hfirst.
    set (ps := match k with KObject => PObjectStart [] | KArray => PArrayStart [] end).
    assert (Hps : parse_go ps more = Some v) by (destruct k; exact Hparse).
    assert (Hch : chain ps = [k]) by (destruct k; reflexivity).
    assert (Hroot : rooted k (chain ps)) by (exists []; rewrite Hch; reflexivity).
    pose proof (strict_lockstep k (opener_of k :: rest) 0 rest LStart ps more v 1
                  I Hgo Hps Hroot Hnt) as Hloop.
    rewrite Hch, kcount_cons_same in Hloop. simpl in Hloop.
    rewrite Hloop. f_equal. unfold slice. simpl. f_equal. apply firstn_all. }
Qed.

(** X1: a strict-JSON object or array text without surrounding
    whitespace is its own balanced block: the extractor, started at its
    first character, returns the whole text, also when the text stands
    inside a longer one. *)
Theorem strict_container_is_balanced_block
    (k : kind) (literal : str) (v : JSONValue) :
  JSON_parse literal = Ok v ->
  startsWith literal [opener_of k] = true ->
  trim literal = literal ->
  extractBalanced literal 0 (opener_of k) (closer_of k) = Some literal
  /\ forall pre tail,
       extractBalanced (pre ++ literal ++ tail) (length pre)
         (opener_of k) (closer_of k) = Some literal.
Proof.
  intros Hv Hstart Htrim.
  pose proof (strict_json_balanced k literal v Hv Hstart Htrim) as Hwhole.
  split; [exact Hwhole|].
  apply (proj2 (extractBalanced_whole literal _ _ Hwhole)).
Qed.

Lemma strict_container_is_balanced_block_witness :
  extractBalanced x_object 0 c_lbrace c_rbrace = Some x_object
  /\ forall pre tail,
       extractBalanced (pre ++ x_object ++ tail) (length pre) c_lbrace c_rbrace
       = Some x_object.
Proof.
  apply (strict_container_is_balanced_block KObject x_object x_object_value);
    vm_compute; reflexivity.
Defined.

Lemma parseJSON_of_parsed (rawData : JSValue) (v : JSONValue) :
  parsedOf rawData = Ok v ->
  parseJSON rawData None = Ok v
  /\ forall key, parseJSON rawData (Some key) = Ok (keyedResult key v).
Proof.
  intros H. split.
  - unfold parseJSON. rewrite H. reflexivity.
  - intros key. apply (parsedOf_container_or_text rawData v H key).
Qed.

(** The decoder's result for a valid text without surrounding whitespace
    in which no rewrite pattern occurs is the result for its normalized
    text. *)
Lemma JSON_parse_normalized (s : str) (v : JSONValue) :
  JSON_parse s = Ok v -> trim s = s ->
  patternOccurs match_key s = false ->
  patternOccurs match_trailing_comma s = false ->
  JSON_parse (normalizeToJSON s) = Ok v.
Proof.
  intros Hv Ht Hk Hc.
  pose proof (normalizeToJSON_valid s v Hv Hk Hc) as Hn.
  rewrite Ht in Hn. rewrite Hn. exact Hv.
Qed.

Lemma opener_closer_facts (k : kind) :
  isWhiteSpace (opener_of k) = false /\ isWhiteSpace (closer_of k) = false
  /\ In (opener_of k, closer_of k) bracketPairs
  /\ ~ In (opener_of k) (js "true") /\ ~ In (opener_of k) (js "false")
  /\ ~ In (opener_of k) (js "null").
Proof.
  destruct k; repeat split; try reflexivity; simpl; auto;
    vm_compute; intuition discriminate.
Qed.

(** What extraction decodes for a text of assignment form whose literal
    is its own balanced block. *)
Lemma parsedOf_assignment (lhs ws literal tail : str) (k : kind) :
  indexOf lhs c_equals = None ->
  looksLikeJSON (assignmentText lhs ws literal tail) = false ->
  forallb isWhiteSpace ws = true ->
  startsWith literal [opener_of k] = true ->
  extractBalanced literal 0 (opener_of k) (closer_of k) = Some literal ->
  parsedOf (Value (JString (assignmentText lhs ws literal tail)))
  = JSON_parse (normalizeToJSON literal).
Proof.
  intros Hlhs Hcls Hws Hstart Hbal.
  destruct (opener_closer_facts k) as (Hows & Hcws & Hpair & _).
  apply startsWith_char in Hstart. destruct Hstart as (rest & ->).
  destruct (extractBalanced_whole _ _ _ Hbal) as ((body & Ebody) & _).
  assert (Htrim : trim (assignmentText lhs ws (opener_of k :: rest) tail)
                  = assignmentText (trimStart lhs) ws (opener_of k :: rest)
                      (trimEnd tail)).
  { rewrite Ebody. apply trim_assignment. exact Hcws. }
  rewrite parsedOf_text. unfold locatedBlock.
  assert (Hno : looksLikeJSON (trim (assignmentText lhs ws (opener_of k :: rest) tail))
                = false).
  { rewrite looksLikeJSON_classify, trimStart_trim, Htrim.
    unfold assignmentText. rewrite classify_before_equals.
    rewrite looksLikeJSON_classify in Hcls. unfold assignmentText, trimStart in Hcls.
    destruct (span_stop isWhiteSpace lhs (ws ++ (opener_of k :: rest) ++ tail)
                c_equals eq_refl) as [_ E].
    rewrite E, classify_before_equals in Hcls. exact Hcls. }
  rewrite Hno, Htrim.
  rewrite (assignmentBlock_literal _ ws rest _ (opener_of k) (closer_of k));
    auto using indexOf_trimStart.
Qed.

(** X2: a text of assignment form (no equals sign before the one of the
    assignment, text not accepted by the Classifier) whose right-hand side
    is a strict-JSON object or array in which no rewrite pattern occurs,
    followed by anything, is extracted as the value the strict decoder
    gives for that literal; a keyed call searches that value. *)
Theorem assignment_of_strict_json
    (lhs ws literal tail : str) (k : kind) (v : JSONValue) :
  indexOf lhs c_equals = None ->
  looksLikeJSON (assignmentText lhs ws literal tail) = false ->
  forallb isWhiteSpace ws = true ->
  startsWith literal [opener_of k] = true ->
  trim literal = literal ->
  JSON_parse literal = Ok v ->
  patternOccurs match_key literal = false ->
  patternOccurs match_trailing_comma literal = false ->
  parseJSON (Value (JString (assignmentText lhs ws literal tail))) None = Ok v
  /\ forall key,
       parseJSON (Value (JString (assignmentText lhs ws literal tail))) (Some key)
       = Ok (keyedResult key v).
Proof.
  intros Hlhs Hcls Hws Hstart Htrim Hv Hk Hc.
  apply parseJSON_of_parsed.
  pose proof (strict_json_balanced k literal v Hv Hstart Htrim) as Hbal.
  rewrite (parsedOf_assignment lhs ws literal tail k Hlhs Hcls Hws Hstart Hbal).
  apply (JSON_parse_normalized literal v Hv Htrim Hk Hc).
Qed.

Lemma assignment_of_strict_json_witness :
  parseJSON (Value (JString (assignmentText (js "var config ") (js " ") x_object
                               (js "; done")))) None
  = Ok x_object_value
  /\ forall key,
       parseJSON (Value (JString (assignmentText (js "var config ") (js " ")
                                    x_object (js "; done")))) (Some key)
       = Ok (keyedResult key x_object_value).
Proof.
  apply (assignment_of_strict_json (js "var config ") (js " ") x_object
           (js "; done") KObject x_object_value);
    vm_compute; reflexivity.
Defined.

(** *** A block amid prose *)



Lemma indexOf_app_none (A B : str) (c : char) :
  indexOf (A ++ B) c = None -> indexOf A c = None /\ indexOf B c = None.
Proof.
  induction A as [|a A IH]; simpl; [auto|].
  destruct (a =? c); [discriminate|].
  destruct (indexOf (A ++ B) c) eqn:E; [discriminate|].
  intros _. destruct (IH eq_refl) as [-> ->]. auto.
Qed.

Lemma indexOf_none_app (A B : str) (c : char) :
  indexOf A c = None -> indexOf B c = None -> indexOf (A ++ B) c = None.
Proof.
  intros HA HB. induction A as [|a A IH]; simpl; [exact HB|].
  simpl in HA. destruct (a =? c); [discriminate|].
  destruct (indexOf A c); [discriminate|]. rewrite (IH eq_refl). reflexivity.
Qed.

Lemma indexOf_trim (s : str) (c : char) :
  indexOf s c = None -> indexOf (trim s) c = None.
Proof.
  intros H. unfold trim.
  destruct (trimEnd_prefix (trimStart s)) as (W & E).
  apply indexOf_trimStart in H. rewrite E in H.
  apply (indexOf_app_none _ W c H).
Qed.




(** ** Trailing commas *)

Lemma replaceAll_key_inert (X Z : str) :
  forallb (fun c => negb ((c =? c_lbrace) || (c =? c_comma))) X = true ->
  replaceAll match_key 0 (X ++ Z) = X ++ replaceAll match_key 0 Z.
Proof.
  induction X as [|x X IH]; intros H; [reflexivity|].
  simpl in H. apply andb_true_iff in H. destruct H as [Hx HX].
  change ((x :: X) ++ Z) with (x :: X ++ Z). rewrite replaceAll_here.
  unfold match_key at 1. apply negb_true_iff in Hx. rewrite Hx.
  rewrite (IH HX). reflexivity.
Qed.

Lemma whitespace_not_key_start (c : char) :
  isWhiteSpace c = true -> negb ((c =? c_lbrace) || (c =? c_comma)) = true.
Proof.
  intros H. apply negb_true_iff. apply orb_false_iff.
  split; apply N.eqb_neq; intros ->; discriminate.
Qed.

(** X4: a comma followed by optional whitespace and a closing brace or
    bracket is deleted by the Normalizer wherever it stands, the
    whitespace and the closing character being kept. *)
Theorem normalizeToJSON_drops_trailing_comma (pre ws post : str) (b : char) :
  forallb isWhiteSpace ws = true ->
  b = c_rbrace \/ b = c_rbracket ->
  exists m',
    normalizeToJSON (pre ++ c_comma :: ws ++ b :: post)
    = normalizeToJSON pre ++ ws ++ b :: normalizeFrom m' post.
Proof.
  intros Hws Hb.
  assert (Hbx : untested b = true /\ isWhiteSpace b = false
                /\ isIdentStart b = false
                /\ negb ((b =? c_lbrace) || (b =? c_comma)) = true
                /\ (b =? c_rbrace) || (b =? c_rbracket) = true).
  { destruct Hb; subst b; repeat split; reflexivity. }
  destruct Hbx as (Hbu & Hbws & Hbid & Hbk & Hbclose).
  destruct (scanUnits_prefix Normal pre c_comma eq_refl) as (m' & Hscan).
  exists m'. rewrite !normalizeToJSON_units, Hscan. unfold normalizeFrom.
  replace (ws ++ b :: post) with ((ws ++ [b]) ++ post)
    by (rewrite <- app_assoc; reflexivity).
  rewrite scanUnits_untested_run
    by (apply forallb_app_true;
        [exact (forallb_weaken _ _ ws whitespace_untested Hws)
        | simpl; rewrite Hbu; reflexivity]).
  set (S_pre := scanUnits Normal pre). set (S_post := scanUnits m' post).
  (* the key rewrite leaves the comma, the whitespace and the closer *)
  rewrite (replaceAll_app match_key S_pre _
             (match_key_local S_pre _ c_comma eq_refl eq_refl eq_refl)).
  rewrite replaceAll_here.
  assert (Hnokey : match_key (c_comma :: (ws ++ [b]) ++ S_post) = None).
  { unfold match_key. cbv zeta. simpl ((c_comma =? c_lbrace) || _).
    rewrite <- app_assoc. simpl ([b] ++ S_post).
    destruct (span_all isWhiteSpace ws S_post b Hws Hbws) as [_ ->].
    rewrite Hbid. reflexivity. }
  rewrite Hnokey.
  rewrite replaceAll_key_inert
    by (apply forallb_app_true;
        [exact (forallb_weaken _ _ ws whitespace_not_key_start Hws)
        | simpl; rewrite Hbk; reflexivity]).
  (* the trailing-comma rewrite deletes the comma *)
  set (K_pre := replaceAll match_key 0 S_pre).
  set (K_post := replaceAll match_key 0 S_post).
  rewrite (replaceAll_app match_trailing_comma K_pre _
             (match_trailing_comma_local K_pre _ c_comma eq_refl eq_refl)).
  f_equal.
  rewrite replaceAll_here.
  assert (Hmatch : match_trailing_comma (c_comma :: (ws ++ [b]) ++ K_post)
                   = Some (ws ++ [b], (1 + length ws + 1)%nat)).
  { unfold match_trailing_comma. cbv zeta. rewrite N.eqb_refl.
    rewrite <- app_assoc. simpl ([b] ++ K_post).
    destruct (span_all isWhiteSpace ws K_post b Hws Hbws) as [-> ->].
    rewrite Hbclose. reflexivity. }
  rewrite Hmatch.
  replace (1 + length ws + 1 - 1)%nat with (length (ws ++ [b]))
    by (rewrite length_app; simpl; lia).
  rewrite replaceAll_skip, <- app_assoc. reflexivity.
Qed.

Lemma normalizeToJSON_drops_trailing_comma_witness :
  exists m',
    normalizeToJSON (js "[1, 2" ++ c_comma :: js " " ++ c_rbracket :: js " // end")
    = normalizeToJSON (js "[1, 2") ++ js " " ++ c_rbracket
        :: normalizeFrom m' (js " // end").
Proof.
  apply (normalizeToJSON_drops_trailing_comma (js "[1, 2") (js " ") (js " // end")
           c_rbracket).
  - reflexivity.
  - right. reflexivity.
Defined.

(** ** Quoted runs *)












(** ** Key search *)

Lemma in_subtrees_nested (root v : JSONValue) :
  In v (subtrees root) -> v = root \/ nestedIn v root.
Proof.
  revert v. induction root using JSONValue_tree_ind; intros v Hin;
    simpl in Hin;
    try (destruct Hin as [<- | []]; left; reflexivity).
  - destruct Hin as [<- | Hin]; [left; reflexivity|]. right.
    apply in_flat_map in Hin. destruct Hin as (item & Hitem & Hv).
    rewrite Forall_forall in H.
    destruct (H item Hitem v Hv) as [-> | Hn].
    + apply nested_child, child_item. exact Hitem.
    + apply (nested_deeper v item); [exact Hn | apply child_item; exact Hitem].
  - destruct Hin as [<- | Hin]; [left; reflexivity|]. right.
    apply in_flat_map in Hin. destruct Hin as ([k item] & Hitem & Hv).
    rewrite Forall_forall in H.
    destruct (H (k, item) Hitem v Hv) as [E | Hn]; simpl in *.
    + subst v. apply nested_child, (child_entry k). exact Hitem.
    + apply (nested_deeper v item); [exact Hn | apply (child_entry k); exact Hitem].
Qed.

Lemma nested_in_subtrees (root v : JSONValue) :
  v = root \/ nestedIn v root -> In v (subtrees root).
Proof.
  intros [-> | Hn].
  - destruct (subtrees_head root) as (t & ->). left. reflexivity.
  - destruct (nestedIn_subtrees v root Hn) as (a & b & ->).
    destruct (subtrees_head v) as (t & ->).
    right. apply in_or_app. right. left. reflexivity.
Qed.

(** X7: the search keeps the results it is given and adds exactly the
    mappings of the tree that own the key: the node itself or a mapping
    nested in it at any depth; a sequence or a scalar is never added. *)
Theorem findByKey_finds_exactly
    (node : JSONValue) (key : str) (results : list JSONValue) (m : JSONValue) :
  In m (findByKey node key results)
  <-> In m results
      \/ ((m = node \/ nestedIn m node)
          /\ exists obj, m = JObject obj /\ hasOwnProperty obj key = true).
Proof.
  rewrite findByKey_matching, in_app_iff. unfold matchingMappings.
  rewrite filter_In. split.
  - intros [H | [Hin Hown]]; [left; exact H | right].
    split; [apply in_subtrees_nested; exact Hin|].
    destruct m; try discriminate. eauto.
  - intros [H | [Hpos (obj & -> & Hown)]]; [left; exact H | right].
    split; [apply nested_in_subtrees; exact Hpos | exact Hown].
Qed.

(** X8: whenever the keyed entry point returns, the result is the empty
    collection, a mapping that owns the key, or a collection of two or
    more mappings that each own the key; it is never a scalar, [null] or
    a collection of one. *)
Theorem parseJSON_keyed_result_kind
    (rawData : JSValue) (key : str) (r : JSONValue) :
  parseJSON rawData (Some key) = Ok r ->
  r = JArray []
  \/ (exists obj, r = JObject obj /\ hasOwnProperty obj key = true)
  \/ (exists ms, r = JArray ms /\ (2 <= length ms)%nat
                 /\ Forall (fun m => ownsKey key m = true) ms).
Proof.
  intros H.
  destruct (parsedOf rawData) as [parsed|e] eqn:Hp;
    [|unfold parseJSON in H; rewrite Hp in H; discriminate].
  rewrite (parsedOf_container_or_text rawData parsed Hp key) in H.
  assert (Hall : Forall (fun m => ownsKey key m = true) (matchingMappings key parsed)).
  { apply Forall_forall. intros m Hm. unfold matchingMappings in Hm.
    apply filter_In in Hm. tauto. }
  destruct (matchingMappings key parsed) as [|m [|m' ms]] eqn:E;
    inversion H; subst r.
  - left. reflexivity.
  - right; left. inversion Hall as [|? ? Hm _]; subst.
    destruct m; try discriminate. eauto.
  - right; right. exists (m :: m' :: ms). repeat split; [simpl; lia | exact Hall].
Qed.

Lemma parseJSON_keyed_result_kind_witness :
  c3_mapping = JArray []
  \/ (exists obj, c3_mapping = JObject obj /\ hasOwnProperty obj (js "a") = true)
  \/ (exists ms, c3_mapping = JArray ms /\ (2 <= length ms)%nat
                 /\ Forall (fun m => ownsKey (js "a") m = true) ms).
Proof.
  apply (parseJSON_keyed_result_kind (Value c3_mapping) (js "a") c3_mapping).
  reflexivity.
Defined.

(** ** Whitespace around the input *)

Lemma trimStart_padded (W s : str) :
  forallb isWhiteSpace W = true -> trimStart (W ++ s) = trimStart s.
Proof.
  unfold trimStart. induction W as [|w W IH]; intros H; [reflexivity|].
  simpl in H. apply andb_true_iff in H. destruct H as [Hw HW].
  simpl. rewrite Hw. apply IH. exact HW.
Qed.

Lemma trimEnd_whitespace (W : str) :
  forallb isWhiteSpace W = true -> trimEnd W = [].
Proof.
  induction W as [|w W IH]; intros H; [reflexivity|].
  simpl in H. apply andb_true_iff in H. destruct H as [Hw HW].
  simpl. rewrite (IH HW), Hw. reflexivity.
Qed.

Lemma trimEnd_padded (t W : str) :
  forallb isWhiteSpace W = true -> trimEnd (t ++ W) = trimEnd t.
Proof.
  intros HW. induction t as [|c t IH]; [apply trimEnd_whitespace; exact HW|].
  change ((c :: t) ++ W) with (c :: t ++ W). simpl. rewrite IH. reflexivity.
Qed.

Lemma trimStart_all_whitespace (s : str) :
  trimStart s = [] -> forallb isWhiteSpace s = true.
Proof.
  unfold trimStart. induction s as [|c s IH]; [reflexivity|].
  simpl. destruct (isWhiteSpace c); [exact IH | discriminate].
Qed.

Lemma trim_padded (W1 s W2 : str) :
  forallb isWhiteSpace W1 = true -> forallb isWhiteSpace W2 = true ->
  trim (W1 ++ s ++ W2) = trim s.
Proof.
  intros H1 H2. unfold trim. rewrite (trimStart_padded W1 _ H1).
  destruct (trimStart s) as [|k r] eqn:E.
  - pose proof (trimStart_all_whitespace s E) as Hs.
    rewrite <- (app_nil_r (s ++ W2)), (trimStart_padded (s ++ W2) [])
      by (rewrite forallb_app, Hs, H2; reflexivity).
    reflexivity.
  - unfold trimStart in *.
    destruct (span_more isWhiteSpace s W2 r k E) as [_ ->].
    change (k :: r ++ W2) with ((k :: r) ++ W2).
    apply trimEnd_padded. exact H2.
Qed.

(** X9: whitespace before and after the text given to the entry point
    never changes what it returns or raises. *)
Theorem parseJSON_ignores_surrounding_whitespace
    (W1 s W2 : str) (nodeKey : option str) :
  forallb isWhiteSpace W1 = true ->
  forallb isWhiteSpace W2 = true ->
  parseJSON (Value (JString (W1 ++ s ++ W2))) nodeKey
  = parseJSON (Value (JString s)) nodeKey.
Proof.
  intros H1 H2. unfold parseJSON.
  rewrite !parsedOf_text, (trim_padded W1 s W2 H1 H2). reflexivity.
Qed.

Lemma parseJSON_ignores_surrounding_whitespace_witness :
  parseJSON (Value (JString ([9; 160] ++ x_padded_inner ++ [10; 8232; 32]))) None
  = parseJSON (Value (JString x_padded_inner)) None.
Proof.
  apply (parseJSON_ignores_surrounding_whitespace [9; 160] x_padded_inner
           [10; 8232; 32] None); reflexivity.
Defined.

(** ** The Classifier and the strategies *)

(** X10: the Classifier accepts every text the strict decoder accepts,
    once trimmed, so that valid JSON is always decoded by the bare-literal
    strategy, from its whole trimmed text; the two other strategies are
    not tried on it. *)
Theorem valid_json_takes_bare_literal_strategy (s : str) (v : JSONValue) :
  JSON_parse s = Ok v ->
  looksLikeJSON (trim s) = true
  /\ locatedBlock (trim s) = Some (trim s)
  /\ parsedOf (Value (JString s)) = JSON_parse (normalizeToJSON (trim s)).
Proof.
  intros Hv. pose proof (looksLikeJSON_valid s v Hv) as Hc.
  split; [exact Hc|].
  assert (Hb : locatedBlock (trim s) = Some (trim s))
    by (unfold locatedBlock; rewrite Hc; reflexivity).
  split; [exact Hb|]. rewrite parsedOf_text, Hb. reflexivity.
Qed.

Lemma valid_json_takes_bare_literal_strategy_witness :
  looksLikeJSON (trim c1_text) = true
  /\ locatedBlock (trim c1_text) = Some (trim c1_text)
  /\ parsedOf (Value (JString c1_text)) = JSON_parse (normalizeToJSON (trim c1_text)).
Proof.
  apply (valid_json_takes_bare_literal_strategy c1_text
           (JArray [JString (js "a,b:c")])).
  vm_compute; reflexivity.
Defined.

(** ** Text without a brace or a bracket *)

Lemma indexOf_none_nth (t : str) (c : char) :
  indexOf t c = None ->
  forall j x, nth_error t j = Some x -> (x =? c) = false.
Proof.
  induction t as [|a t IH]; intros H j x Hj; [destruct j; discriminate|].
  simpl in H. destruct (a =? c) eqn:Ea; [discriminate|].
  destruct (indexOf t c); [discriminate|].
  destruct j as [|j]; simpl in Hj.
  - inversion Hj; subst. exact Ea.
  - apply (IH eq_refl j x Hj).
Qed.

Lemma locatedBlock_without_opener (t : str) :
  looksLikeJSON t = false ->
  indexOf t c_lbrace = None ->
  indexOf t c_lbracket = None ->
  locatedBlock t = None.
Proof.
  intros Hc Hbrace Hbracket. unfold locatedBlock. rewrite Hc.
  assert (Ha : assignmentBlock t = None).
  { unfold assignmentBlock. destruct (indexOf t c_equals) as [eqIdx|]; [|reflexivity].
    cbv zeta.
    destruct (nth_error t (skipWhiteSpaceFrom t (eqIdx + 1))) as [opener|] eqn:E;
      [|reflexivity].
    rewrite (indexOf_none_nth t c_lbrace Hbrace _ opener E),
            (indexOf_none_nth t c_lbracket Hbracket _ opener E).
    reflexivity. }
  rewrite Ha. unfold bracketPairs. simpl. rewrite Hbrace, Hbracket. reflexivity.
Qed.

(** X11: a text with no opening brace and no opening bracket that the
    Classifier rejects is never decoded: the unkeyed call returns [null],
    the keyed call the empty collection, and nothing is raised, whatever
    else the text holds. *)
Theorem text_without_opener_is_absent (s : str) :
  looksLikeJSON (trim s) = false ->
  indexOf s c_lbrace = None ->
  indexOf s c_lbracket = None ->
  parseJSON (Value (JString s)) None = Ok JNull
  /\ forall key, parseJSON (Value (JString s)) (Some key) = Ok (JArray []).
Proof.
  intros Hc Hbrace Hbracket.
  assert (Hnone : locatedBlock (trim s) = None)
    by (apply locatedBlock_without_opener; auto using indexOf_trim).
  unfold parseJSON. rewrite parsedOf_text, Hnone.
  split; [reflexivity | intros key; reflexivity].
Qed.

Lemma text_without_opener_is_absent_witness :
  parseJSON (Value (JString x_plain_prose)) None = Ok JNull
  /\ forall key, parseJSON (Value (JString x_plain_prose)) (Some key) = Ok (JArray []).
Proof.
  apply (text_without_opener_is_absent x_plain_prose); vm_compute; reflexivity.
Defined.
